(** * History publication and catch-up accounting of stellar-core

    A shallow embedding of [src/history/HistoryManagerImpl.cpp] (checkpoint
    arithmetic, the durable publish queue and its drive operations) and of
    [CatchupSimulation::computeCatchupPerformedWork] from
    [src/history/test/HistoryTestsUtils.cpp], with the properties of the
    design document stated and settled against them.

    Conventions.  A [uint32_t] is a [Z] in [0, 2^32) and every arithmetic
    operation of the source is followed by its wrap-around, written out
    with [add32], [sub32], [mul32].  The SQL table [publishqueue] is a
    finite map from the primary key [ledger] to the nullable [state]
    column.  Code that mutates the application is written in a small
    state-and-exception monad [M]: what was mutated before a [throw]
    stays mutated, as in C++. *)

From stdpp Require Import base option list gmap strings fin_maps.
From Stdlib Require Import ZArith Lia.
From Stdlib Require Import NArith.
From stdpp Require Import pretty sorting.

Local Open Scope Z_scope.

(** ** Unsigned 32-bit and 64-bit arithmetic *)

Module U32.

Definition modulus : Z := 2 ^ 32.
Definition UINT32_MAX : Z := modulus - 1.

Definition wrap (z : Z) : Z := z mod modulus.

Definition add32 (a b : Z) : Z := wrap (a + b).
Definition sub32 (a b : Z) : Z := wrap (a - b).
Definition mul32 (a b : Z) : Z := wrap (a * b).
(** Unsigned division never leaves the range; the source never divides
    by zero (the frequency is 8 or 64). *)
Definition div32 (a b : Z) : Z := a / b.

Definition in_range (z : Z) : Prop := 0 <= z < modulus.

End U32.

Import U32.

Definition wrap64 (z : Z) : Z := z mod 2 ^ 64.

(** ** Configuration *)

Record Config : Type := mkConfig
  { ARTIFICIALLY_ACCELERATE_TIME_FOR_TESTING : bool }.

Definition productionConfig : Config := mkConfig false.
Definition acceleratedConfig : Config := mkConfig true.

(** ** Checkpoint arithmetic (HistoryManagerImpl.cpp, lines 83-116) *)

Definition getCheckpointFrequency (cfg : Config) : Z :=
  if ARTIFICIALLY_ACCELERATE_TIME_FOR_TESTING cfg then 8 else 64.

Definition prevCheckpointLedger (cfg : Config) (ledger : Z) : Z :=
  let freq := getCheckpointFrequency cfg in
  mul32 (div32 ledger freq) freq.

Definition nextCheckpointLedger (cfg : Config) (ledger : Z) : Z :=
  let freq := getCheckpointFrequency cfg in
  if ledger =? 0 then freq
  else mul32 (div32 (sub32 (add32 ledger freq) 1) freq) freq.

Definition checkpointContainingLedger (cfg : Config) (ledger : Z) : Z :=
  sub32 (nextCheckpointLedger cfg (add32 ledger 1)) 1.

(** A checkpoint boundary, as the data model words it: a positive multiple
    of the frequency, minus one. *)
Definition is_checkpoint_boundary (freq b : Z) : Prop :=
  exists k : Z, 1 <= k /\ b = k * freq - 1.

(** [r] is the smallest checkpoint boundary that is not below [l]. *)
Definition smallest_boundary_from (freq l r : Z) : Prop :=
  is_checkpoint_boundary freq r /\ l <= r /\
  forall b, is_checkpoint_boundary freq b -> l <= b -> r <= b.

(** The reading of "prevCheckpoint(nextCheckpoint(L)) lands on the boundary
    at or above the one containing L" with boundaries of the form
    [k * freq - 1] and [checkpointContainingLedger] as the containing one. *)
Definition lands_at_or_above_containing (cfg : Config) (l : Z) : Prop :=
  let r := prevCheckpointLedger cfg (nextCheckpointLedger cfg l) in
  is_checkpoint_boundary (getCheckpointFrequency cfg) r /\
  checkpointContainingLedger cfg l <= r.

(** The intermediate sums of [checkpointContainingLedger l] that may leave
    the 32-bit range: [l + 1], and [ledger + freq - 1] inside
    [nextCheckpointLedger]. *)
Definition containing_overflows (cfg : Config) (l : Z) : Prop :=
  modulus <= l + 1 \/
  modulus <= add32 l 1 + getCheckpointFrequency cfg - 1.

(** ** Snapshot descriptors and their serialisation *)

(** Modelled from the spec: [HistoryArchiveState] (history/HistoryArchive.h
    is not among the sources): the ledger sequence at capture time and the
    identifiers of the state-store files at that moment.  The source reads
    [has.currentLedger] and [has.allBuckets()]. *)
Record HistoryArchiveState : Type := mkHistoryArchiveState
  { currentLedger : Z;
    allBuckets : list string }.

(** Modelled from the spec: [HistoryArchiveState::toString] and
    [fromString], the serialisation to "a self-describing text form".  The
    text format is not among the sources, so the pair is an interface.
    [fromString] is total: what the parser does with a text that is not a
    serialised descriptor is not modelled. *)
Class HistoryArchiveCodec : Type := mkHistoryArchiveCodec
  { toString : HistoryArchiveState -> string;
    fromString : string -> HistoryArchiveState }.

(** ** Publish work *)

(** The three phases that [takeSnapshotAndPublish] lines up. *)
Inductive BasicWork : Type :=
  | ResolveSnapshotWork
  | WriteSnapshotWork
  | PutSnapshotFilesWork.

(** [PublishWork(snap, seq)]: the snapshot it publishes and its phases. *)
Record PublishWork : Type := mkPublishWork
  { snapshot : HistoryArchiveState;
    workSequence : list BasicWork }.

(** ** Bucket reference index *)

(** Modelled from the spec: [PublishQueueBuckets]
    (history/PublishQueueBuckets.h is not among the sources), "a mapping
    from state-store file identifier to reference count"; enqueueing
    merges a snapshot's buckets into it, confirming decrements it, and an
    entry whose count reaches zero is removed. *)
Module PublishQueueBuckets.

Abbreviation BucketCount := (gmap string Z).

Definition addBucket (m : BucketCount) (b : string) : BucketCount :=
  <[b := default 0 (m !! b) + 1]> m.

Definition addBuckets (bs : list string) (m : BucketCount) : BucketCount :=
  foldl addBucket m bs.

Definition removeBucket (m : BucketCount) (b : string) : BucketCount :=
  match m !! b with
  | None => m
  | Some n => if n - 1 =? 0 then delete b m else <[b := n - 1]> m
  end.

Definition removeBuckets (bs : list string) (m : BucketCount) : BucketCount :=
  foldl removeBucket m bs.

End PublishQueueBuckets.

(** ** Application state *)

(** Closures handed to [postOnMainThread]; the only one in this file is
    [[this]() { this->publishQueuedHistory(); }]. *)
Inductive MainThreadAction : Type :=
  | CallPublishQueuedHistory.

(** The fields of [HistoryManagerImpl].  A null [mPublishWork] is [None];
    the two meters are their counts; the timer is the list of durations it
    was updated with. *)
Record HistoryManagerImpl : Type := mkHistoryManagerImpl
  { mPublishWork : option PublishWork;
    mPublishSuccess : Z;
    mPublishFailure : Z;
    mPublishQueued : Z;
    mPublishQueueBuckets : gmap string Z;
    mPublishQueueBucketsFilled : bool;
    mEnqueueTimes : gmap Z Z;
    mEnqueueToPublishTimer : list Z;
    mPublicationEnabled : bool }.

(** The collaborators that the history manager reaches through [mApp]:
    configuration, the [publishqueue] table of the database (primary key
    [ledger], nullable text column [state]), the ledger manager's last
    closed ledger, the bucket manager's current bucket list, the archive
    manager, the work scheduler's scheduled work, the main thread's queue
    of posted closures and the steady clock. *)
Record Application : Type := mkApplication
  { getConfig : Config;
    publishqueue : gmap Z (option string);
    getLastClosedLedgerNum : Z;
    getBucketList : list string;
    hasAnyWritableHistoryArchive : bool;
    scheduledWork : list PublishWork;
    postedOnMainThread : list MainThreadAction;
    steadyClockNow : Z;
    getHistoryManager : HistoryManagerImpl }.

Definition set_publishqueue (f : gmap Z (option string) -> gmap Z (option string))
    (app : Application) : Application :=
  mkApplication (getConfig app) (f (publishqueue app))
    (getLastClosedLedgerNum app) (getBucketList app)
    (hasAnyWritableHistoryArchive app) (scheduledWork app)
    (postedOnMainThread app) (steadyClockNow app) (getHistoryManager app).

Definition set_scheduledWork (f : list PublishWork -> list PublishWork)
    (app : Application) : Application :=
  mkApplication (getConfig app) (publishqueue app)
    (getLastClosedLedgerNum app) (getBucketList app)
    (hasAnyWritableHistoryArchive app) (f (scheduledWork app))
    (postedOnMainThread app) (steadyClockNow app) (getHistoryManager app).

Definition set_postedOnMainThread
    (f : list MainThreadAction -> list MainThreadAction)
    (app : Application) : Application :=
  mkApplication (getConfig app) (publishqueue app)
    (getLastClosedLedgerNum app) (getBucketList app)
    (hasAnyWritableHistoryArchive app) (scheduledWork app)
    (f (postedOnMainThread app)) (steadyClockNow app) (getHistoryManager app).

Definition set_historyManager (f : HistoryManagerImpl -> HistoryManagerImpl)
    (app : Application) : Application :=
  mkApplication (getConfig app) (publishqueue app)
    (getLastClosedLedgerNum app) (getBucketList app)
    (hasAnyWritableHistoryArchive app) (scheduledWork app)
    (postedOnMainThread app) (steadyClockNow app) (f (getHistoryManager app)).

Definition set_mPublishWork (w : option PublishWork)
    (hm : HistoryManagerImpl) : HistoryManagerImpl :=
  mkHistoryManagerImpl w (mPublishSuccess hm) (mPublishFailure hm)
    (mPublishQueued hm) (mPublishQueueBuckets hm)
    (mPublishQueueBucketsFilled hm) (mEnqueueTimes hm)
    (mEnqueueToPublishTimer hm) (mPublicationEnabled hm).

Definition set_mPublishSuccess (f : Z -> Z)
    (hm : HistoryManagerImpl) : HistoryManagerImpl :=
  mkHistoryManagerImpl (mPublishWork hm) (f (mPublishSuccess hm))
    (mPublishFailure hm) (mPublishQueued hm) (mPublishQueueBuckets hm)
    (mPublishQueueBucketsFilled hm) (mEnqueueTimes hm)
    (mEnqueueToPublishTimer hm) (mPublicationEnabled hm).

Definition set_mPublishFailure (f : Z -> Z)
    (hm : HistoryManagerImpl) : HistoryManagerImpl :=
  mkHistoryManagerImpl (mPublishWork hm) (mPublishSuccess hm)
    (f (mPublishFailure hm)) (mPublishQueued hm) (mPublishQueueBuckets hm)
    (mPublishQueueBucketsFilled hm) (mEnqueueTimes hm)
    (mEnqueueToPublishTimer hm) (mPublicationEnabled hm).

Definition set_mPublishQueued (f : Z -> Z)
    (hm : HistoryManagerImpl) : HistoryManagerImpl :=
  mkHistoryManagerImpl (mPublishWork hm) (mPublishSuccess hm)
    (mPublishFailure hm) (f (mPublishQueued hm)) (mPublishQueueBuckets hm)
    (mPublishQueueBucketsFilled hm) (mEnqueueTimes hm)
    (mEnqueueToPublishTimer hm) (mPublicationEnabled hm).

Definition set_mPublishQueueBuckets (f : gmap string Z -> gmap string Z)
    (hm : HistoryManagerImpl) : HistoryManagerImpl :=
  mkHistoryManagerImpl (mPublishWork hm) (mPublishSuccess hm)
    (mPublishFailure hm) (mPublishQueued hm) (f (mPublishQueueBuckets hm))
    (mPublishQueueBucketsFilled hm) (mEnqueueTimes hm)
    (mEnqueueToPublishTimer hm) (mPublicationEnabled hm).

Definition set_mEnqueueTimes (f : gmap Z Z -> gmap Z Z)
    (hm : HistoryManagerImpl) : HistoryManagerImpl :=
  mkHistoryManagerImpl (mPublishWork hm) (mPublishSuccess hm)
    (mPublishFailure hm) (mPublishQueued hm) (mPublishQueueBuckets hm)
    (mPublishQueueBucketsFilled hm) (f (mEnqueueTimes hm))
    (mEnqueueToPublishTimer hm) (mPublicationEnabled hm).

Definition set_mEnqueueToPublishTimer (f : list Z -> list Z)
    (hm : HistoryManagerImpl) : HistoryManagerImpl :=
  mkHistoryManagerImpl (mPublishWork hm) (mPublishSuccess hm)
    (mPublishFailure hm) (mPublishQueued hm) (mPublishQueueBuckets hm)
    (mPublishQueueBucketsFilled hm) (mEnqueueTimes hm)
    (f (mEnqueueToPublishTimer hm)) (mPublicationEnabled hm).

(** ** State and exceptions *)

(** The exception of the database layer: SOCI reports a failed statement,
    such as an INSERT that violates the primary key, by throwing. *)
Inductive exn : Type :=
  | soci_error (what : string).

Inductive outcome (A : Type) : Type :=
  | Returned (a : A)
  | Thrown (e : exn).
Arguments Returned {A} a.
Arguments Thrown {A} e.

Definition M (A : Type) : Type := Application -> outcome A * Application.

#[export] Instance M_ret : MRet M := fun A a app => (Returned a, app).

#[export] Instance M_bind : MBind M := fun A B f m app =>
  match m app with
  | (Returned a, app') => f a app'
  | (Thrown e, app') => (Thrown e, app')
  end.

Definition gets {A : Type} (f : Application -> A) : M A :=
  fun app => (Returned (f app), app).

Definition modify (f : Application -> Application) : M unit :=
  fun app => (Returned tt, f app).

Definition throw {A : Type} (e : exn) : M A :=
  fun app => (Thrown e, app).

Definition modifyHistoryManager
    (f : HistoryManagerImpl -> HistoryManagerImpl) : M unit :=
  modify (set_historyManager f).

(** The application after running [m]. *)
Definition exec {A : Type} (m : M A) (app : Application) : Application :=
  snd (m app).

(** What [m] returned or threw. *)
Definition result {A : Type} (m : M A) (app : Application) : outcome A :=
  fst (m app).

(** ** The publishqueue table (kSQLCreateStatement, lines 47-50)

    [CREATE TABLE IF NOT EXISTS publishqueue (ledger INTEGER PRIMARY KEY,
    state TEXT)]: at most one row per ledger, and [state] may be NULL. *)
Module Sql.

(** The ledgers of the rows. *)
Definition ledgers (tbl : gmap Z (option string)) : list Z :=
  (map_to_list tbl).*1.

(** [SELECT count(ledger) FROM publishqueue]. *)
Definition countLedger (tbl : gmap Z (option string)) : Z :=
  Z.of_nat (length (ledgers tbl)).

(** [SELECT min(ledger) FROM publishqueue]: NULL over no rows. *)
Definition minLedger (tbl : gmap Z (option string)) : option Z :=
  match ledgers tbl with
  | [] => None
  | k :: ks => Some (foldr Z.min k ks)
  end.

(** [SELECT max(ledger) FROM publishqueue]: NULL over no rows. *)
Definition maxLedger (tbl : gmap Z (option string)) : option Z :=
  match ledgers tbl with
  | [] => None
  | k :: ks => Some (foldr Z.max k ks)
  end.

(** [SELECT state FROM publishqueue ORDER BY ledger ASC LIMIT 1]: no
    data over no rows ([None]), else the [state] column of the row with
    the lowest ledger, which may be NULL ([Some None]). *)
Definition stateOfLowestLedger (tbl : gmap Z (option string))
    : option (option string) :=
  k ← minLedger tbl; tbl !! k.

(** [INSERT INTO publishqueue (ledger, state) VALUES (:lg, :st)]: a
    second row for a ledger violates the primary key, the statement
    fails and SOCI throws; the table is as it was. *)
Definition insert (lg : Z) (st : string) : M unit :=
  tbl ← gets publishqueue;
  match tbl !! lg with
  | Some _ =>
      throw (soci_error "UNIQUE constraint failed: publishqueue.ledger")
  | None => modify (set_publishqueue (fun t => <[lg := Some st]> t))
  end.

(** [DELETE FROM publishqueue WHERE ledger = :lg]. *)
Definition deleteLedger (lg : Z) : M unit :=
  modify (set_publishqueue (fun t => delete lg t)).

End Sql.

(** ** HistoryManagerImpl: the publish queue *)

Section HistoryManager.

Context `{HistoryArchiveCodec}.

(** Lines 147-158. *)
Definition publishQueueLength : M Z :=
  gets (fun app => Sql.countLedger (publishqueue app)).

(** Lines 186-202: the indicator is [i_ok] when [min] is not NULL. *)
Definition getMinLedgerQueuedToPublish : M Z :=
  minIndicator ← gets (fun app => Sql.minLedger (publishqueue app));
  match minIndicator with
  | Some seq => mret seq
  | None => mret 0
  end.

(** Lines 204-220. *)
Definition getMaxLedgerQueuedToPublish : M Z :=
  maxIndicator ← gets (fun app => Sql.maxLedger (publishqueue app));
  match maxIndicator with
  | Some seq => mret seq
  | None => mret 0
  end.

(** Lines 242-271.  [emplace] leaves an enqueue time that is already
    there; when the INSERT throws, the statements after it do not run. *)
Definition queueCurrentHistory : M unit :=
  ledger ← gets getLastClosedLedgerNum;
  bucketList ← gets getBucketList;
  let has := mkHistoryArchiveState ledger bucketList in
  now ← gets steadyClockNow;
  modifyHistoryManager (set_mEnqueueTimes (fun times =>
    match times !! ledger with
    | Some _ => times
    | None => <[ledger := now]> times
    end));;
  let state := toString has in
  Sql.insert ledger state;;
  modifyHistoryManager (set_mPublishQueued (fun n => wrap64 (n + 1)));;
  modifyHistoryManager (set_mPublishQueueBuckets
    (PublishQueueBuckets.addBuckets (allBuckets has))).

(** Lines 222-240. *)
Definition maybeQueueHistoryCheckpoint : M bool :=
  lcl ← gets getLastClosedLedgerNum;
  cfg ← gets getConfig;
  let seq := add32 lcl 1 in
  if negb (seq =? nextCheckpointLedger cfg seq) then mret false
  else
    writable ← gets hasAnyWritableHistoryArchive;
    if negb writable then mret false
    else queueCurrentHistory;; mret true.

(** Lines 273-294.  The work scheduler takes the new work and the
    manager keeps the pointer to it. *)
Definition takeSnapshotAndPublish (has : HistoryArchiveState) : M unit :=
  active ← gets (fun app => mPublishWork (getHistoryManager app));
  match active with
  | Some _ => mret tt
  | None =>
      let snap := has in
      let seq := [ResolveSnapshotWork; WriteSnapshotWork;
                  PutSnapshotFilesWork] in
      let work := mkPublishWork snap seq in
      modify (set_scheduledWork (fun ws => ws ++ [work]));;
      modifyHistoryManager (set_mPublishWork (Some work))
  end.

(** Lines 296-326 ([mPublicationEnabled] exists in test builds and is
    true unless a test disables publication). *)
Definition publishQueuedHistory : M Z :=
  enabled ← gets (fun app => mPublicationEnabled (getHistoryManager app));
  if negb enabled then mret 0
  else
    row ← gets (fun app => Sql.stateOfLowestLedger (publishqueue app));
    match row with
    | Some (Some state) =>
        let has := fromString state in
        takeSnapshotAndPublish has;;
        mret 1
    | _ => mret 0
    end.

(** Lines 395-432. *)
Definition historyPublished (ledgerSeq : Z) (originalBuckets : list string)
    (success : bool) : M unit :=
  (if success then
     times ← gets (fun app => mEnqueueTimes (getHistoryManager app));
     match times !! ledgerSeq with
     | Some enqueued =>
         now ← gets steadyClockNow;
         modifyHistoryManager
           (set_mEnqueueToPublishTimer (fun ds => ds ++ [now - enqueued]));;
         modifyHistoryManager
           (set_mEnqueueTimes (fun ts => delete ledgerSeq ts))
     | None => mret tt
     end;;
     modifyHistoryManager (set_mPublishSuccess (fun n => wrap64 (n + 1)));;
     Sql.deleteLedger ledgerSeq;;
     modifyHistoryManager (set_mPublishQueueBuckets
       (PublishQueueBuckets.removeBuckets originalBuckets))
   else
     modifyHistoryManager (set_mPublishFailure (fun n => wrap64 (n + 1))));;
  modifyHistoryManager (set_mPublishWork None);;
  modify (set_postedOnMainThread (fun q => q ++ [CallPublishQueuedHistory])).

(** Lines 434-450. *)
Definition getPublishQueueCount : M Z :=
  gets (fun app => mPublishQueued (getHistoryManager app)).
Definition getPublishSuccessCount : M Z :=
  gets (fun app => mPublishSuccess (getHistoryManager app)).
Definition getPublishFailureCount : M Z :=
  gets (fun app => mPublishFailure (getHistoryManager app)).

(** The main thread runs the closures posted to it, oldest first. *)
Definition runMainThreadAction (a : MainThreadAction) : M unit :=
  match a with
  | CallPublishQueuedHistory => publishQueuedHistory;; mret tt
  end.

Definition runPosted : M unit :=
  q ← gets postedOnMainThread;
  modify (set_postedOnMainThread (fun _ => []));;
  foldr (fun a rest => runMainThreadAction a;; rest) (mret tt) q.

End HistoryManager.

(** ** Catch-up ranges and the work a catch-up performs *)

(** Modelled from the spec: the replay-window policy of a catch-up,
    "replay everything from genesis" or "replay only the last N ledgers,
    restoring earlier state from buckets" (catchup/CatchupConfiguration.h
    is not among the sources; the source calls [toLedger()]). *)
Inductive ReplayWindow : Type :=
  | ReplayEverything
  | ReplayRecent (n : Z).

Record CatchupConfiguration : Type := mkCatchupConfiguration
  { toLedger : Z;
    window : ReplayWindow }.

Module LedgerRange.
(** The aggregate [{first, last}] that the source passes to
    [CheckpointRange]. *)
Record t : Type := mk { mFirst : Z; mLast : Z }.
End LedgerRange.

Module CheckpointRange.
Record t : Type := mk { mFirst : Z; mLast : Z; mFrequency : Z }.

(** Modelled from the spec: [CheckpointRange::count]
    (ledger/CheckpointRange.h is not among the sources): both end points
    inclusively, each counted once. *)
Definition count (r : t) : Z :=
  add32 (div32 (sub32 (mLast r) (mFirst r)) (mFrequency r)) 1.

(** Modelled from the spec: the constructor from a ledger range, the
    range's checkpoint span: each end is taken to the checkpoint that
    contains it. *)
Definition ofLedgerRange (lr : LedgerRange.t) (cfg : Config) : t :=
  mk (checkpointContainingLedger cfg (LedgerRange.mFirst lr))
     (checkpointContainingLedger cfg (LedgerRange.mLast lr))
     (getCheckpointFrequency cfg).

Definition eqb (a b : t) : bool :=
  (mFirst a =? mFirst b) && (mLast a =? mLast b).
End CheckpointRange.

Module CatchupRange.
Record Ledgers : Type := mkLedgers { mFirst : Z; mCount : Z }.
Record t : Type := mk { mLedgers : Ledgers; mApplyBuckets : bool }.

(** Modelled from the spec: [CatchupRange::getLast], the last ledger to
    apply. *)
Definition getLast (r : t) : Z :=
  sub32 (add32 (mFirst (mLedgers r)) (mCount (mLedgers r))) 1.

(** Modelled from the spec: the constructor (catchup/CatchupRange.cpp is
    not among the sources), section 4.3: a target within the replay
    window of the last closed ledger, or a full replay, applies
    [lastClosed + 1 .. target] without buckets; otherwise buckets are
    applied and the apply range begins with the checkpoint in which the
    window of [n] ledgers that ends at the target begins, the buckets
    restoring the state of the ledger just before it.  (In the example of
    section 8, frequency 64, last closed 63, target 200, recent 64, the
    window begins at ledger 137 and its checkpoint at ledger 128, so that
    the verify range starts at checkpoint 127, one checkpoint before the
    apply range.) *)
Definition ofConfiguration (lastClosedLedger : Z)
    (configuration : CatchupConfiguration) (cfg : Config) : t :=
  let fullReplay :=
    mk (mkLedgers (add32 lastClosedLedger 1)
          (sub32 (toLedger configuration) lastClosedLedger)) false in
  match window configuration with
  | ReplayEverything => fullReplay
  | ReplayRecent n =>
      if sub32 (toLedger configuration) lastClosedLedger <=? n
      then fullReplay
      else
        let windowStart := add32 (sub32 (toLedger configuration) n) 1 in
        let first := prevCheckpointLedger cfg windowStart in
        mk (mkLedgers first
              (add32 (sub32 (toLedger configuration) first) 1)) true
  end.
End CatchupRange.

(** Modelled from the spec: [LedgerManager::GENESIS_LEDGER_SEQ]; ledger 0 is
    the synthetic predecessor of the genesis ledger. *)
Definition GENESIS_LEDGER_SEQ : Z := 1.

Record CatchupPerformedWork : Type := mkCatchupPerformedWork
  { mHistoryArchiveStatesDownloaded : Z;
    mLedgersDownloaded : Z;
    mLedgersVerified : Z;
    mLedgerChainsVerificationFailed : Z;
    mBucketsDownloaded : bool;
    mBucketsApplied : bool;
    mTransactionsDownloaded : Z;
    mTransactionsApplied : Z }.

Section CatchupSimulation.

(** The constructors of [CatchupRange] and of [CheckpointRange] are not
    among the sources: [computeCatchupPerformedWork] is read over any
    pair of them. *)
Variable newCatchupRange :
  Z -> CatchupConfiguration -> Config -> CatchupRange.t.
Variable newCheckpointRange : LedgerRange.t -> Config -> CheckpointRange.t.

(** HistoryTestsUtils.cpp, lines 927-964; the history manager is asked
    for its checkpoint frequency only, so it is its configuration. *)
Definition computeCatchupPerformedWork (lastClosedLedger : Z)
    (catchupConfiguration : CatchupConfiguration) (historyManager : Config)
    : CatchupPerformedWork :=
  let catchupRange :=
    newCatchupRange lastClosedLedger catchupConfiguration historyManager in
  let verifyCheckpointRange :=
    newCheckpointRange
      (LedgerRange.mk
         (sub32 (CatchupRange.mFirst (CatchupRange.mLedgers catchupRange)) 1)
         (CatchupRange.getLast catchupRange))
      historyManager in
  let applyCheckpointRange :=
    newCheckpointRange
      (LedgerRange.mk
         (CatchupRange.mFirst (CatchupRange.mLedgers catchupRange))
         (CatchupRange.getLast catchupRange))
      historyManager in
  let historyArchiveStatesDownloaded := 1 in
  let historyArchiveStatesDownloaded :=
    if CatchupRange.mApplyBuckets catchupRange &&
       negb (CheckpointRange.mFirst verifyCheckpointRange =?
             CheckpointRange.mLast verifyCheckpointRange)
    then add32 historyArchiveStatesDownloaded 1
    else historyArchiveStatesDownloaded in
  let ledgersDownloaded := CheckpointRange.count verifyCheckpointRange in
  let transactionsDownloaded := CheckpointRange.count applyCheckpointRange in
  let firstVerifiedLedger :=
    Z.max GENESIS_LEDGER_SEQ
      (sub32 (add32 (CheckpointRange.mFirst verifyCheckpointRange) 1)
         (getCheckpointFrequency historyManager)) in
  let ledgersVerified :=
    add32 (sub32 (toLedger catchupConfiguration) firstVerifiedLedger) 1 in
  let transactionsApplied :=
    CatchupRange.mCount (CatchupRange.mLedgers catchupRange) in
  mkCatchupPerformedWork historyArchiveStatesDownloaded ledgersDownloaded
    ledgersVerified 0 (CatchupRange.mApplyBuckets catchupRange)
    (CatchupRange.mApplyBuckets catchupRange) transactionsDownloaded
    transactionsApplied.

(** The two checkpoint ranges that [computeCatchupPerformedWork] builds. *)
Definition verifyCheckpointRangeOf (lastClosedLedger : Z)
    (catchupConfiguration : CatchupConfiguration) (historyManager : Config)
    : CheckpointRange.t :=
  let catchupRange :=
    newCatchupRange lastClosedLedger catchupConfiguration historyManager in
  newCheckpointRange
    (LedgerRange.mk
       (sub32 (CatchupRange.mFirst (CatchupRange.mLedgers catchupRange)) 1)
       (CatchupRange.getLast catchupRange))
    historyManager.

Definition applyCheckpointRangeOf (lastClosedLedger : Z)
    (catchupConfiguration : CatchupConfiguration) (historyManager : Config)
    : CheckpointRange.t :=
  let catchupRange :=
    newCatchupRange lastClosedLedger catchupConfiguration historyManager in
  newCheckpointRange
    (LedgerRange.mk
       (CatchupRange.mFirst (CatchupRange.mLedgers catchupRange))
       (CatchupRange.getLast catchupRange))
    historyManager.


(** Section 4.3 of the design document on the two ranges when buckets
    are restored: the verify range is the apply range's checkpoints
    extended one checkpoint earlier, so it starts before the apply range
    and reaches into it. *)
Definition verifyExtendsApplyEarlier (verify apply : CheckpointRange.t)
    : Prop :=
  CheckpointRange.mFirst verify < CheckpointRange.mFirst apply /\
  CheckpointRange.mFirst apply <= CheckpointRange.mLast verify.

End CatchupSimulation.

(** ** Fixtures for worked examples *)

(** Two snapshot descriptors, taken at ledgers 64 and 128, that share the
    bucket [b-shared]. *)
Definition has64 : HistoryArchiveState :=
  mkHistoryArchiveState 64 ["b-shared"; "b-64"]%string.
Definition has128 : HistoryArchiveState :=
  mkHistoryArchiveState 128 ["b-shared"; "b-128"]%string.

(** A codec that knows the two descriptors by name. *)
Definition fixtureCodec : HistoryArchiveCodec :=
  mkHistoryArchiveCodec
    (fun has =>
       if currentLedger has =? 64 then "has64"%string else "has128"%string)
    (fun s => if String.eqb s "has64" then has64 else has128).

Definition freshHistoryManager : HistoryManagerImpl :=
  mkHistoryManagerImpl None 0 0 0 ∅ false ∅ [] true.

(** A node that has queued the checkpoints at 64 and 128 and published
    nothing yet. *)
Definition queued64and128 : Application :=
  mkApplication productionConfig
    {[ 64 := Some "has64"%string; 128 := Some "has128"%string ]}
    128 ["b-shared"; "b-128"]%string true [] [] 1000
    (mkHistoryManagerImpl None 0 0 2
       {[ "b-shared"%string := 2; "b-64"%string := 1; "b-128"%string := 1 ]}
       true {[ 64 := 10; 128 := 500 ]} [] true).

(** The same node while the pipeline for ledger 64 is active. *)
Definition publishing64 : Application :=
  set_scheduledWork (fun _ => [mkPublishWork has64
     [ResolveSnapshotWork; WriteSnapshotWork; PutSnapshotFilesWork]])
    (set_historyManager (set_mPublishWork (Some (mkPublishWork has64
       [ResolveSnapshotWork; WriteSnapshotWork; PutSnapshotFilesWork])))
       queued64and128).

(** The queue of 64 and 128 with the state of row 64 lost: the column is
    declared [state TEXT] and may hold NULL.  No publish work is active
    and publication is enabled. *)
Definition nullLowest64and128 : Application :=
  set_publishqueue
    (fun _ => {[ 64 := None; 128 := Some "has128"%string ]}) queued64and128.

(** ** Readings of the properties of the publish queue *)

(** The reading of "for every queue state the drain selects the entry with
    the lowest ledger, activates publication for exactly that entry and
    returns 1": whatever else the application holds, the pipeline for the
    descriptor in the lowest row is scheduled and becomes the active
    work. *)
Definition drain_activates_lowest `{HistoryArchiveCodec}
    (app : Application) : Prop :=
  forall k state,
    publishqueue app !! k = Some (Some state) ->
    (forall k', is_Some (publishqueue app !! k') -> k <= k') ->
    let work := mkPublishWork (fromString state)
      [ResolveSnapshotWork; WriteSnapshotWork; PutSnapshotFilesWork] in
    publishQueuedHistory app =
      (Returned 1,
       set_historyManager (set_mPublishWork (Some work))
         (set_scheduledWork (fun ws => ws ++ [work]) app)).

(** The weakest reading of the same sentence: over a queue that is not
    empty the drain returns 1 and a publish work is active afterwards,
    whether it was scheduled by this call or before. *)
Definition drain_returns_one_when_queued `{HistoryArchiveCodec}
    (app : Application) : Prop :=
  publishqueue app <> ∅ ->
  result publishQueuedHistory app = Returned 1 /\
  is_Some (mPublishWork (getHistoryManager (exec publishQueuedHistory app))).

(** The reading of "enqueueing at a ledger that is already queued fails
    logically, not via an exception": the call returns and the table is
    as it was. *)
Definition enqueue_fails_without_exception `{HistoryArchiveCodec}
    (app : Application) : Prop :=
  is_Some (publishqueue app !! getLastClosedLedgerNum app) ->
  (exists u, result queueCurrentHistory app = Returned u) /\
  publishqueue (exec queueCurrentHistory app) = publishqueue app.

(** What the scenarios observe of an application: the queue, the bucket
    reference index and the two publish counters. *)
Definition observed (app : Application)
    : gmap Z (option string) * gmap string Z * Z * Z :=
  (publishqueue app,
   mPublishQueueBuckets (getHistoryManager app),
   mPublishSuccess (getHistoryManager app),
   mPublishFailure (getHistoryManager app)).

(** ** Further operations of the history manager and of the test utilities *)

Definition set_mPublishQueueBucketsFilled (b : bool)
    (hm : HistoryManagerImpl) : HistoryManagerImpl :=
  mkHistoryManagerImpl (mPublishWork hm) (mPublishSuccess hm)
    (mPublishFailure hm) (mPublishQueued hm) (mPublishQueueBuckets hm)
    b (mEnqueueTimes hm) (mEnqueueToPublishTimer hm) (mPublicationEnabled hm).

(** HistoryManagerImpl.cpp, lines 52-58: [DROP TABLE IF EXISTS
    publishqueue] and then the CREATE statement leave the table without
    rows; the function is static and reaches the database only. *)
Definition dropAll : M unit :=
  modify (set_publishqueue (fun _ => ∅)).

(** HistoryTestsUtils.cpp, lines 444-449. *)
Definition getLastCheckpointLedger (cfg : Config) (checkpointIndex : Z) : Z :=
  sub32 (mul32 (getCheckpointFrequency cfg) checkpointIndex) 1.

(** The steady clock read at another time. *)
Definition set_steadyClockNow (now : Z) (app : Application) : Application :=
  mkApplication (getConfig app) (publishqueue app)
    (getLastClosedLedgerNum app) (getBucketList app)
    (hasAnyWritableHistoryArchive app) (scheduledWork app)
    (postedOnMainThread app) now (getHistoryManager app).

(** A node that has just closed ledger 63, the last ledger of the first
    checkpoint, and one that has just closed ledger 64 with the bucket
    list of [has64]; neither has queued anything. *)
Definition closed63 : Application :=
  mkApplication productionConfig ∅ 63 ["b-shared"; "b-64"]%string true [] []
    100 freshHistoryManager.

Definition closed64 : Application :=
  mkApplication productionConfig ∅ 64 ["b-shared"; "b-64"]%string true [] []
    100 freshHistoryManager.

(** ** Buckets referenced by the publish queue
    (HistoryManagerImpl.cpp, lines 328-380) *)

Section ReferencedBuckets.

Context `{HistoryArchiveCodec}.

(** Lines 328-346: [SELECT state FROM publishqueue], every row parsed.
    The statement binds [state] without an indicator, so a NULL state
    makes SOCI throw.  SQL leaves the order of the rows to the database;
    the model takes the order of [map_to_list]. *)
Definition getPublishQueueStates : M (list HistoryArchiveState) :=
  tbl ← gets publishqueue;
  match mapM snd (map_to_list tbl) with
  | None => throw (soci_error "Null value fetched and no indicator defined")
  | Some states => mret (fromString <$> states)
  end.

(** Lines 348-362: [result[b]++] for every bucket of every queued state;
    a key that is not there yet starts at 0. *)
Definition loadBucketsReferencedByPublishQueue : M (gmap string Z) :=
  states ← getPublishQueueStates;
  mret (foldl
          (fun result s =>
             foldl (fun result b => <[b := default 0 (result !! b) + 1]> result)
               result (allBuckets s))
          ∅ states).

(** Lines 364-380: the index is loaded from the table on the first call
    only; the answer is the keys of the index ([setBuckets] replaces the
    map of [PublishQueueBuckets] and [map()] reads it). *)
Definition getBucketsReferencedByPublishQueue : M (list string) :=
  filled ← gets (fun app => mPublishQueueBucketsFilled (getHistoryManager app));
  (if negb filled then
     loaded ← loadBucketsReferencedByPublishQueue;
     modifyHistoryManager (set_mPublishQueueBuckets (fun _ => loaded));;
     modifyHistoryManager (set_mPublishQueueBucketsFilled true)
   else mret tt);;
  index ← gets (fun app => mPublishQueueBuckets (getHistoryManager app));
  mret ((map_to_list index).*1).

End ReferencedBuckets.

(** How often [b] occurs in [bs], and how often the queued states
    [states] reference it. *)
Definition occurrences (b : string) (bs : list string) : nat :=
  length (filter (fun x => x = b) bs).

Definition references (b : string) (states : list HistoryArchiveState) : nat :=
  sum_list_with (fun s => occurrences b (allBuckets s)) states.

(** The states of the rows whose state is not NULL, parsed. *)
Definition queuedStates `{HistoryArchiveCodec}
    (tbl : gmap Z (option string)) : list HistoryArchiveState :=
  fromString <$> omap snd (map_to_list tbl).

(** The bucket reference index counts the queue: every bucket has as its
    count the number of times the queued states reference it, and a bucket
    that none references has no entry. *)
Definition index_counts_queue `{HistoryArchiveCodec} (app : Application)
    : Prop :=
  forall b,
    mPublishQueueBuckets (getHistoryManager app) !! b =
      if decide (references b (queuedStates (publishqueue app)) = 0%nat)
      then None
      else Some (Z.of_nat (references b (queuedStates (publishqueue app)))).

(** ** Catch-up metrics (HistoryTestsUtils.cpp, lines 304-416) *)

Module CatchupMetrics.

(** The counters a catch-up leaves in the metrics registry, each a
    [uint64_t]. *)
Record t : Type := mk
  { mHistoryArchiveStatesDownloaded : Z;
    mLedgersDownloaded : Z;
    mLedgersVerified : Z;
    mLedgerChainsVerificationFailed : Z;
    mBucketsDownloaded : Z;
    mBucketsApplied : Z;
    mTransactionsDownloaded : Z;
    mTransactionsApplied : Z }.

(** Lines 304-314, the default constructor. *)
Definition zero : t := mk 0 0 0 0 0 0 0 0.

(** Every counter within [uint64_t]. *)
Definition in_range (x : t) : Prop :=
  0 <= mHistoryArchiveStatesDownloaded x < 2 ^ 64 /\
  0 <= mLedgersDownloaded x < 2 ^ 64 /\
  0 <= mLedgersVerified x < 2 ^ 64 /\
  0 <= mLedgerChainsVerificationFailed x < 2 ^ 64 /\
  0 <= mBucketsDownloaded x < 2 ^ 64 /\
  0 <= mBucketsApplied x < 2 ^ 64 /\
  0 <= mTransactionsDownloaded x < 2 ^ 64 /\
  0 <= mTransactionsApplied x < 2 ^ 64.

(** Lines 332-344, [operator-]: unsigned 64-bit differences. *)
Definition minus (x y : t) : t :=
  mk (wrap64 (mHistoryArchiveStatesDownloaded x -
              mHistoryArchiveStatesDownloaded y))
     (wrap64 (mLedgersDownloaded x - mLedgersDownloaded y))
     (wrap64 (mLedgersVerified x - mLedgersVerified y))
     (wrap64 (mLedgerChainsVerificationFailed x -
              mLedgerChainsVerificationFailed y))
     (wrap64 (mBucketsDownloaded x - mBucketsDownloaded y))
     (wrap64 (mBucketsApplied x - mBucketsApplied y))
     (wrap64 (mTransactionsDownloaded x - mTransactionsDownloaded y))
     (wrap64 (mTransactionsApplied x - mTransactionsApplied y)).

End CatchupMetrics.

(** Lines 346-356: the performed work read off a difference of metrics;
    the two bucket counters become flags. *)
Definition performedWorkOfMetrics (metrics : CatchupMetrics.t)
    : CatchupPerformedWork :=
  mkCatchupPerformedWork
    (CatchupMetrics.mHistoryArchiveStatesDownloaded metrics)
    (CatchupMetrics.mLedgersDownloaded metrics)
    (CatchupMetrics.mLedgersVerified metrics)
    (CatchupMetrics.mLedgerChainsVerificationFailed metrics)
    (0 <? CatchupMetrics.mBucketsDownloaded metrics)
    (0 <? CatchupMetrics.mBucketsApplied metrics)
    (CatchupMetrics.mTransactionsDownloaded metrics)
    (CatchupMetrics.mTransactionsApplied metrics).

(** Lines 374-410, [operator==]: the fields are compared one after the
    other and the first difference answers false. *)
Definition performedWork_eqb (x y : CatchupPerformedWork) : bool :=
  if negb (mHistoryArchiveStatesDownloaded x =? mHistoryArchiveStatesDownloaded y)
  then false
  else if negb (mLedgersDownloaded x =? mLedgersDownloaded y) then false
  else if negb (mLedgersVerified x =? mLedgersVerified y) then false
  else if negb (mLedgerChainsVerificationFailed x =?
                mLedgerChainsVerificationFailed y) then false
  else if negb (Bool.eqb (mBucketsDownloaded x) (mBucketsDownloaded y))
  then false
  else if negb (Bool.eqb (mBucketsApplied x) (mBucketsApplied y)) then false
  else if negb (mTransactionsDownloaded x =? mTransactionsDownloaded y)
  then false
  else if negb (mTransactionsApplied x =? mTransactionsApplied y) then false
  else true.

(** Lines 412-416, [operator!=]. *)
Definition performedWork_neqb (x y : CatchupPerformedWork) : bool :=
  negb (performedWork_eqb x y).

(** ** The publish status line (HistoryManagerImpl.cpp, lines 118-145) *)

Section PublishStatus.

(** [BasicWork::getStatus] of the active work is not among the sources. *)
Variable getStatus : PublishWork -> string.

(** The status manager holds at most one message for the category
    HISTORY_PUBLISH, and reading an absent message gives the empty
    string; [log] is what has been written to the History log.  The
    function changes nothing of the application. *)
Definition logAndUpdatePublishStatus (statusMessage : option string)
    (log : list string) : M (option string * list string) :=
  active ← gets (fun app => mPublishWork (getHistoryManager app));
  match active with
  | Some work =>
      qlen ← publishQueueLength;
      lo ← getMinLedgerQueuedToPublish;
      hi ← getMaxLedgerQueuedToPublish;
      let current :=
        ("Publishing " +:+ pretty qlen +:+ " queued checkpoints" +:+ " [" +:+
         pretty lo +:+ "-" +:+ pretty hi +:+ "]" +:+ ": " +:+ getStatus work)
      in
      let existing := default ""%string statusMessage in
      if bool_decide (existing <> current)
      then mret (Some current, log ++ [current])
      else mret (statusMessage, log)
  | None => mret (None, log)
  end.

End PublishStatus.

(** ** Missing buckets (HistoryManagerImpl.cpp, lines 382-393) *)

(** A [std::set<std::string>] as the list of its elements in iteration
    order, ascending; inserting an element that is there changes
    nothing. *)
Fixpoint set_insert (x : string) (l : list string) : list string :=
  match l with
  | [] => [x]
  | y :: l' =>
      match String.compare x y with
      | Lt => x :: l
      | Eq => l
      | Gt => y :: set_insert x l'
      end
  end.

(** The order of the elements of such a set: [operator<] of
    [std::string]. *)
Definition string_lt (a b : string) : Prop := String.ltb a b = true.

Section MissingBuckets.

Context `{HistoryArchiveCodec}.

(** [BucketManager::checkForMissingBucketsFiles] is not among the
    sources. *)
Variable checkForMissingBucketsFiles : HistoryArchiveState -> list string.

Definition getMissingBucketsReferencedByPublishQueue : M (list string) :=
  states ← getPublishQueueStates;
  let buckets :=
    foldl (fun buckets s =>
             let sb := checkForMissingBucketsFiles s in
             foldl (fun buckets b => set_insert b buckets) buckets sb)
      [] states in
  mret buckets.

End MissingBuckets.

(** ** Ledger chain files of the tests
    (HistoryTestsUtils.cpp, lines 227-273) *)

Definition Hash : Type := list Byte.byte.

Definition zeroHash : Hash := repeat Byte.x00 32.

(** The fields of a ledger header that the generator of test chains
    reads and writes. *)
Record LedgerHeader : Type := mkLedgerHeader
  { ledgerSeq : Z;
    previousLedgerHash : Hash }.

Record LedgerHeaderHistoryEntry : Type := mkLedgerHeaderHistoryEntry
  { hash : Hash;
    header : LedgerHeader }.

(** A default-constructed entry: every field zero. *)
Definition defaultEntry : LedgerHeaderHistoryEntry :=
  mkLedgerHeaderHistoryEntry zeroHash (mkLedgerHeader 0 zeroHash).

(** Lines 227-247: the entries written to the ledger file of the
    checkpoint, with [first] and [last] as they are left. *)
Definition createHistoryFiles (lhv : list LedgerHeaderHistoryEntry)
    (first last : LedgerHeaderHistoryEntry)
    : list LedgerHeaderHistoryEntry *
      (LedgerHeaderHistoryEntry * LedgerHeaderHistoryEntry) :=
  foldl (fun '(ledgerOut, (first, last)) ledger =>
           let first := if ledgerSeq (header first) =? 0 then ledger
                        else first in
           (ledgerOut ++ [ledger], (first, ledger)))
    ([], (first, last)) lhv.

Section LedgerChain.

(** [HistoryManager::LedgerVerificationStatus] and
    [LedgerTestUtils::generateLedgerHeadersForCheckpoint] are not among the
    sources. *)
Variable LedgerVerificationStatus : Type.
Variable generateLedgerHeadersForCheckpoint :
  LedgerHeaderHistoryEntry -> Z -> LedgerVerificationStatus ->
  list LedgerHeaderHistoryEntry.

(** Lines 249-273: the file written for the checkpoint and the ends that
    are returned. *)
Definition makeOneLedgerFile (cfg : Config) (currCheckpoint : Z)
    (prevHash : Hash) (state : LedgerVerificationStatus)
    : list LedgerHeaderHistoryEntry *
      (LedgerHeaderHistoryEntry * LedgerHeaderHistoryEntry) :=
  let initLedger := prevCheckpointLedger cfg currCheckpoint in
  let frequency := getCheckpointFrequency cfg in
  let '(initLedger, frequency) :=
    if initLedger =? 0 then (GENESIS_LEDGER_SEQ, sub32 frequency 1)
    else (initLedger, frequency) in
  let lcl :=
    mkLedgerHeaderHistoryEntry zeroHash (mkLedgerHeader initLedger prevHash) in
  let ledgerChain :=
    generateLedgerHeadersForCheckpoint lcl frequency state in
  createHistoryFiles ledgerChain defaultEntry defaultEntry.

End LedgerChain.

(** ** Further fixtures *)

(** The node that has queued 64 and 128, after a restart: the table is
    there and the history manager is fresh, its index not yet filled. *)
Definition restarted64and128 : Application :=
  set_historyManager (fun _ => freshHistoryManager) queued64and128.

(** A node whose only queue row, for ledger 64, has a NULL state. *)
Definition nullState64 : Application :=
  mkApplication productionConfig {[ 64 := None ]} 64
    ["b-shared"; "b-64"]%string true [] [] 100 freshHistoryManager.

(** A bucket manager for which, of all buckets, only [b-64] is missing. *)
Definition onlyB64Missing (has : HistoryArchiveState) : list string :=
  filter (fun b => b = "b-64"%string) (allBuckets has).

(** A generator of ledger headers that numbers [n] headers from the
    sequence of the given entry on, whatever the status asked for. *)
Definition numberedHeaders (lcl : LedgerHeaderHistoryEntry) (n : Z)
    (state : unit) : list LedgerHeaderHistoryEntry :=
  (fun i => mkLedgerHeaderHistoryEntry zeroHash
              (mkLedgerHeader (ledgerSeq (header lcl) + Z.of_nat i) zeroHash))
    <$> seq 0 (Z.to_nat n).

(** Metrics before and after a catch-up that fetched two archive states
    and applied buckets. *)
Definition metricsBefore : CatchupMetrics.t :=
  CatchupMetrics.mk 1 2 64 0 0 0 2 64.
Definition metricsAfter : CatchupMetrics.t :=
  CatchupMetrics.mk 3 4 137 0 5 5 4 128.

(** *** Arithmetic facts *)

Lemma frequency_cases cfg :
  getCheckpointFrequency cfg = 8 \/ getCheckpointFrequency cfg = 64.
Proof.
  unfold getCheckpointFrequency.
  destruct (ARTIFICIALLY_ACCELERATE_TIME_FOR_TESTING cfg); auto.
Qed.

Lemma frequency_pos cfg : 0 < getCheckpointFrequency cfg.
Proof. destruct (frequency_cases cfg) as [-> | ->]; lia. Qed.

Lemma modulus_eq : modulus = 4294967296.
Proof. reflexivity. Qed.

Lemma sub32_add32 a b c : sub32 (add32 a b) c = wrap (a + b - c).
Proof. unfold sub32, add32, wrap. apply Zminus_mod_idemp_l. Qed.

Ltac unfold32 :=
  unfold checkpointContainingLedger, nextCheckpointLedger,
    prevCheckpointLedger, add32, sub32, mul32, div32, wrap, in_range, UINT32_MAX
    in *;
  rewrite ?modulus_eq in *.

Ltac freq_cases cfg :=
  let H := fresh "Hfreq" in
  destruct (frequency_cases cfg) as [H | H]; rewrite !H in *; clear H.

(** Settles a goal of 32-bit arithmetic at the two frequencies of the
    code: every [mod] and [/] is by a constant, so the goal is linear once
    quotients and remainders are named. *)
Ltac solve32 cfg :=
  unfold32; freq_cases cfg;
  repeat match goal with
         | |- context [?x =? 0] => destruct (Z.eqb_spec x 0)
         end;
  Z.div_mod_to_equations; lia.

(** Settles a range condition at a concrete ledger and configuration. *)
Ltac concrete_range :=
  unfold UINT32_MAX, productionConfig, acceleratedConfig, getCheckpointFrequency in *;
  rewrite ?modulus_eq in *; cbn in *; lia.

(** Below the last [freq] ledgers of the range nothing wraps and
    [checkpointContainingLedger] is the usual round-up. *)
Lemma containing_low cfg l :
  0 <= l < modulus - getCheckpointFrequency cfg ->
  checkpointContainingLedger cfg l =
    (l / getCheckpointFrequency cfg + 1) * getCheckpointFrequency cfg - 1.
Proof. intros Hl. solve32 cfg. Qed.

(** In the last [freq] ledgers but one, [ledger + freq - 1] wraps to a
    value below [freq], the product is 0 and the final [- 1] wraps back to
    [2^32 - 1]. *)
Lemma containing_high cfg l :
  modulus - getCheckpointFrequency cfg <= l <= modulus - 2 ->
  checkpointContainingLedger cfg l = UINT32_MAX.
Proof. intros Hl. solve32 cfg. Qed.

(** At the very top [l + 1] wraps to 0 and the [ledger == 0] branch of
    [nextCheckpointLedger] answers [freq]. *)
Lemma containing_top cfg :
  checkpointContainingLedger cfg UINT32_MAX = getCheckpointFrequency cfg - 1.
Proof. unfold32. freq_cases cfg; reflexivity. Qed.

Lemma containing_in_range cfg l :
  in_range (checkpointContainingLedger cfg l).
Proof. unfold32. apply Z.mod_pos_bound. lia. Qed.

(** Without wrap-around [nextCheckpointLedger] answers a positive multiple
    of the frequency, which [prevCheckpointLedger] leaves where it is. *)
Lemma next_low cfg l :
  0 <= l <= modulus - getCheckpointFrequency cfg ->
  exists k, 1 <= k /\
    nextCheckpointLedger cfg l = k * getCheckpointFrequency cfg /\
    l <= k * getCheckpointFrequency cfg <= modulus - getCheckpointFrequency cfg /\
    k * getCheckpointFrequency cfg <
      l + getCheckpointFrequency cfg + (if l =? 0 then 1 else 0).
Proof.
  intros Hl.
  exists (if l =? 0 then 1
          else (l + getCheckpointFrequency cfg - 1) / getCheckpointFrequency cfg).
  solve32 cfg.
Qed.

Lemma prev_of_multiple cfg k :
  0 <= k * getCheckpointFrequency cfg < modulus ->
  prevCheckpointLedger cfg (k * getCheckpointFrequency cfg) =
    k * getCheckpointFrequency cfg.
Proof.
  intros Hk. unfold prevCheckpointLedger, mul32, div32, wrap.
  rewrite Z.div_mul by (pose proof (frequency_pos cfg); lia).
  apply Z.mod_small. exact Hk.
Qed.

(** * Properties *)

(** ** Checkpoint arithmetic *)

Lemma containing_low_smallest cfg l :
  0 <= l < modulus - getCheckpointFrequency cfg ->
  smallest_boundary_from (getCheckpointFrequency cfg) l
    (checkpointContainingLedger cfg l).
Proof.
  intros Hl. rewrite containing_low by exact Hl.
  unfold smallest_boundary_from, is_checkpoint_boundary.
  pose proof (frequency_pos cfg) as Hf.
  split; [| split].
  - exists (l / getCheckpointFrequency cfg + 1). split; [| reflexivity].
    pose proof (Z.div_pos l _ (proj1 Hl) Hf). lia.
  - freq_cases cfg; Z.div_mod_to_equations; lia.
  - intros b (k & Hk & ->) Hb. rewrite modulus_eq in Hl.
    freq_cases cfg; Z.div_mod_to_equations; lia.
Qed.

Lemma max_smallest_at_the_top cfg l :
  modulus - getCheckpointFrequency cfg <= l <= UINT32_MAX ->
  smallest_boundary_from (getCheckpointFrequency cfg) l UINT32_MAX.
Proof.
  intros Hl. unfold smallest_boundary_from, is_checkpoint_boundary.
  unfold UINT32_MAX in *. rewrite modulus_eq in *.
  split; [| split].
  - freq_cases cfg; [exists 536870912 | exists 67108864]; lia.
  - lia.
  - intros b (k & Hk & ->) Hb. freq_cases cfg; lia.
Qed.

Lemma containing_high_smallest cfg l :
  modulus - getCheckpointFrequency cfg <= l <= modulus - 2 ->
  smallest_boundary_from (getCheckpointFrequency cfg) l
    (checkpointContainingLedger cfg l).
Proof.
  intros Hl. rewrite containing_high by exact Hl.
  apply max_smallest_at_the_top. unfold UINT32_MAX. lia.
Qed.

(** C3, as amended.  For every ledger [l] below [2^32 - 1] and either
    frequency, [checkpointContainingLedger l] is the smallest checkpoint
    boundary (a positive multiple of the frequency, minus one) that is at
    least [l]; and for every [l] it is [nextCheckpointLedger (l + 1) - 1]
    in 32-bit arithmetic. *)
Theorem checkpointContaining_smallest_boundary cfg l :
  0 <= l < UINT32_MAX ->
  smallest_boundary_from (getCheckpointFrequency cfg) l
    (checkpointContainingLedger cfg l) /\
  checkpointContainingLedger cfg l =
    sub32 (nextCheckpointLedger cfg (add32 l 1)) 1.
Proof.
  intros Hl. split; [| reflexivity].
  destruct (Z_lt_le_dec l (modulus - getCheckpointFrequency cfg)).
  - apply containing_low_smallest. lia.
  - apply containing_high_smallest. unfold UINT32_MAX in Hl. lia.
Qed.

Lemma checkpointContaining_smallest_boundary_witness :
  smallest_boundary_from 64 100 127 /\
  checkpointContainingLedger productionConfig 100 = 127.
Proof.
  pose proof (checkpointContaining_smallest_boundary productionConfig 100
                ltac:(concrete_range)) as [Hs He].
  split; [exact Hs | reflexivity].
Defined.

(** C3, as stated, fails at the last ledger: [2^32 - 1] is itself a
    boundary, yet [checkpointContainingLedger] answers 63. *)
Lemma checkpointContaining_top_not_smallest :
  ~ smallest_boundary_from (getCheckpointFrequency productionConfig) UINT32_MAX
      (checkpointContainingLedger productionConfig UINT32_MAX).
Proof.
  intros (_ & Hle & _). vm_compute in Hle. apply Hle. reflexivity.
Qed.

(** C7, as amended.  [checkpointContainingLedger] is idempotent at every
    ledger below [2^32 - freq] and at [2^32 - 1]. *)
Theorem checkpointContaining_idempotent cfg l :
  0 <= l < modulus - getCheckpointFrequency cfg \/ l = UINT32_MAX ->
  checkpointContainingLedger cfg (checkpointContainingLedger cfg l) =
    checkpointContainingLedger cfg l.
Proof.
  intros [Hl | ->].
  - rewrite (containing_low cfg l Hl).
    set (r := (l / getCheckpointFrequency cfg + 1) * getCheckpointFrequency cfg - 1).
    assert (Hr : 0 <= r < modulus - getCheckpointFrequency cfg).
    { subst r. rewrite modulus_eq in *.
      freq_cases cfg; Z.div_mod_to_equations; lia. }
    rewrite (containing_low cfg r Hr). subst r.
    replace ((l / getCheckpointFrequency cfg + 1) * getCheckpointFrequency cfg - 1)
      with (getCheckpointFrequency cfg - 1 +
            l / getCheckpointFrequency cfg * getCheckpointFrequency cfg) at 1
      by lia.
    pose proof (frequency_pos cfg).
    rewrite Z.div_add by lia. rewrite Z.div_small by lia. lia.
  - rewrite containing_top.
    rewrite containing_low by (rewrite modulus_eq; freq_cases cfg; lia).
    freq_cases cfg; reflexivity.
Qed.

Lemma checkpointContaining_idempotent_witness :
  checkpointContainingLedger productionConfig
    (checkpointContainingLedger productionConfig 100) =
  checkpointContainingLedger productionConfig 100.
Proof.
  apply (checkpointContaining_idempotent productionConfig 100).
  left. concrete_range.
Defined.

(** C7, as stated, fails at [2^32 - 2]: the checkpoint containing it is
    [2^32 - 1], and the checkpoint containing that is 63. *)
Lemma checkpointContaining_not_idempotent_near_top :
  checkpointContainingLedger productionConfig
    (checkpointContainingLedger productionConfig (UINT32_MAX - 1)) <>
  checkpointContainingLedger productionConfig (UINT32_MAX - 1).
Proof. vm_compute. discriminate. Qed.

(** C8, as amended.  For every ledger [l] up to [2^32 - freq],
    [prevCheckpointLedger (nextCheckpointLedger l)] is
    [nextCheckpointLedger l] itself: a positive multiple of the frequency,
    one past a checkpoint boundary, at least [l] and at least
    [prevCheckpointLedger l].  It is [checkpointContainingLedger l + 1]
    when [l] is 0 or no multiple of the frequency, and it is [l], below
    [checkpointContainingLedger l], when [l] is a positive multiple. *)
Theorem prev_of_next_checkpoint cfg l :
  0 <= l <= modulus - getCheckpointFrequency cfg ->
  let freq := getCheckpointFrequency cfg in
  let r := prevCheckpointLedger cfg (nextCheckpointLedger cfg l) in
  r = nextCheckpointLedger cfg l /\
  (exists k, 1 <= k /\ r = k * freq) /\
  is_checkpoint_boundary freq (r - 1) /\
  l <= r /\
  prevCheckpointLedger cfg l <= r /\
  (l = 0 \/ l mod freq <> 0 -> r = checkpointContainingLedger cfg l + 1) /\
  (0 < l /\ l mod freq = 0 -> r = l /\ r < checkpointContainingLedger cfg l).
Proof.
  intros Hl freq r.
  destruct (next_low cfg l Hl) as (k & Hk & Hnext & Hrange & Hclose).
  assert (Hr : r = k * freq).
  { subst r. rewrite Hnext. apply prev_of_multiple.
    pose proof (frequency_pos cfg). lia. }
  rewrite Hnext, Hr. subst freq. clear r Hr Hnext.
  split; [reflexivity |]. split; [exists k; auto |].
  split; [exists k; auto |]. split; [lia |].
  split; [| split].
  - unfold32. freq_cases cfg; Z.div_mod_to_equations; lia.
  - intros Hcase.
    assert (Hlow : 0 <= l < modulus - getCheckpointFrequency cfg).
    { split; [lia |].
      destruct (Z.eq_dec l (modulus - getCheckpointFrequency cfg)) as [-> | ?];
        [| lia].
      exfalso. rewrite modulus_eq in Hcase.
      destruct Hcase as [? | Hmod]; [freq_cases cfg; lia |].
      apply Hmod. freq_cases cfg; reflexivity. }
    rewrite (containing_low cfg l Hlow).
    rewrite modulus_eq in *.
    destruct (Z.eqb_spec l 0);
      freq_cases cfg; Z.div_mod_to_equations; lia.
  - intros [Hpos Hmod].
    assert (Hk' : k * getCheckpointFrequency cfg = l).
    { destruct (Z.eqb_spec l 0); [lia |].
      rewrite modulus_eq in *.
      freq_cases cfg; Z.div_mod_to_equations; lia. }
    split; [exact Hk' |]. rewrite Hk'.
    destruct (Z_lt_le_dec l (modulus - getCheckpointFrequency cfg)) as [Hlt | Hge].
    + rewrite (containing_low cfg l (conj (Z.lt_le_incl _ _ Hpos) Hlt)).
      rewrite modulus_eq in *.
      freq_cases cfg; Z.div_mod_to_equations; lia.
    + rewrite containing_high; unfold UINT32_MAX; rewrite modulus_eq in *;
        freq_cases cfg; lia.
Qed.

Lemma prev_of_next_checkpoint_witness :
  prevCheckpointLedger productionConfig
    (nextCheckpointLedger productionConfig 100) =
  nextCheckpointLedger productionConfig 100.
Proof.
  pose proof (prev_of_next_checkpoint productionConfig 100
                ltac:(concrete_range)) as Hthm.
  exact (proj1 Hthm).
Defined.

(** C8, as stated, fails at ledger 64 with frequency 64:
    [prevCheckpointLedger (nextCheckpointLedger 64)] is 64, which is not
    of the form [k * 64 - 1] and is below the containing checkpoint 127. *)
Lemma prev_of_next_not_a_boundary_at_64 :
  ~ lands_at_or_above_containing productionConfig 64.
Proof.
  intros [_ Hle]. vm_compute in Hle. apply Hle. reflexivity.
Qed.

(** C9, as amended.  At the top of the 32-bit range the sums inside
    [checkpointContainingLedger] wrap.  At [l = 2^32 - 1], [l + 1] wraps
    to 0 and the answer is [freq - 1], below [l], so it is not the
    smallest boundary from [l].  At the other ledgers where
    [ledger + freq - 1] overflows, [2^32 - freq <= l <= 2^32 - 2], the
    product wraps to 0 and the final [- 1] wraps back to [2^32 - 1], which
    is the smallest boundary from [l]. *)
Theorem checkpointContaining_wraps_at_top cfg l :
  modulus - getCheckpointFrequency cfg <= l <= UINT32_MAX ->
  let freq := getCheckpointFrequency cfg in
  containing_overflows cfg l /\
  (l = UINT32_MAX ->
     add32 l 1 = 0 /\
     checkpointContainingLedger cfg l = freq - 1 /\
     checkpointContainingLedger cfg l < l /\
     ~ smallest_boundary_from freq l (checkpointContainingLedger cfg l)) /\
  (l < UINT32_MAX ->
     checkpointContainingLedger cfg l = UINT32_MAX /\
     smallest_boundary_from freq l (checkpointContainingLedger cfg l)).
Proof.
  intros Hl freq. subst freq. split; [| split].
  - unfold containing_overflows, add32, wrap, UINT32_MAX in *.
    destruct (Z.eq_dec l (modulus - 1)) as [-> | Hne]; [left; lia | right].
    rewrite Z.mod_small; rewrite modulus_eq in *; freq_cases cfg; lia.
  - intros ->. rewrite containing_top.
    split; [reflexivity |].
    split; [reflexivity |].
    split; [unfold UINT32_MAX; rewrite modulus_eq; freq_cases cfg; lia |].
    intros (_ & Hle & _).
    unfold UINT32_MAX in Hle; rewrite modulus_eq in Hle; freq_cases cfg; lia.
  - intros Hlt.
    assert (Hhigh : modulus - getCheckpointFrequency cfg <= l <= modulus - 2)
      by (unfold UINT32_MAX in *; lia).
    split; [apply containing_high, Hhigh | apply containing_high_smallest, Hhigh].
Qed.

Lemma checkpointContaining_wraps_at_top_witness :
  checkpointContainingLedger productionConfig (UINT32_MAX - 1) = UINT32_MAX.
Proof.
  pose proof (checkpointContaining_wraps_at_top productionConfig (UINT32_MAX - 1)
                ltac:(concrete_range)) as Hthm.
  apply Hthm. concrete_range.
Defined.

(** C9, as stated, fails at [2^32 - 2] with frequency 64:
    [ledger + freq - 1] overflows there, yet the answer is [2^32 - 1],
    neither [freq - 1] nor below the ledger. *)
Lemma checkpointContaining_overflow_without_small_answer :
  ~ (containing_overflows productionConfig (UINT32_MAX - 1) ->
     checkpointContainingLedger productionConfig (UINT32_MAX - 1) =
       getCheckpointFrequency productionConfig - 1 /\
     checkpointContainingLedger productionConfig (UINT32_MAX - 1) < UINT32_MAX - 1).
Proof.
  intros Hclaim.
  assert (Hov : containing_overflows productionConfig (UINT32_MAX - 1))
    by (right; vm_compute; discriminate).
  destruct (Hclaim Hov) as [Heq _]. vm_compute in Heq. discriminate.
Qed.

(** ** The publishqueue table *)

Lemma elem_of_ledgers (tbl : gmap Z (option string)) (k : Z) :
  k ∈ Sql.ledgers tbl <-> is_Some (tbl !! k).
Proof.
  unfold Sql.ledgers. rewrite list_elem_of_fmap. split.
  - intros ([k' v] & -> & Hin). apply elem_of_map_to_list in Hin.
    simpl. eauto.
  - intros [v Hv]. exists (k, v). split; [reflexivity |].
    apply elem_of_map_to_list. exact Hv.
Qed.

Lemma ledgers_nil (tbl : gmap Z (option string)) :
  Sql.ledgers tbl = [] <-> tbl = ∅.
Proof.
  unfold Sql.ledgers. split.
  - intros Hnil. apply fmap_nil_inv in Hnil.
    apply map_to_list_empty_iff. exact Hnil.
  - intros ->. rewrite map_to_list_empty. reflexivity.
Qed.

Lemma foldr_min_spec (k : Z) (ks : list Z) :
  foldr Z.min k ks ∈ k :: ks /\ forall x, x ∈ k :: ks -> foldr Z.min k ks <= x.
Proof.
  induction ks as [| y ks [IHin IHle]]; simpl.
  - split; [left |]. intros x Hx. apply list_elem_of_singleton in Hx. lia.
  - split.
    + destruct (Z.min_spec y (foldr Z.min k ks)) as [[_ ->] | [_ ->]].
      * right. left.
      * apply elem_of_cons in IHin as [-> | Hin]; [left | right; right; exact Hin].
    + intros x Hx.
      assert (Hx' : x = y \/ x ∈ k :: ks).
      { apply elem_of_cons in Hx as [-> | Hx]; [right; left |].
        apply elem_of_cons in Hx as [-> | Hx]; [left; reflexivity |].
        right. right. exact Hx. }
      destruct Hx' as [-> | Hx']; [lia |].
      specialize (IHle x Hx'). lia.
Qed.

Lemma foldr_max_spec (k : Z) (ks : list Z) :
  foldr Z.max k ks ∈ k :: ks /\ forall x, x ∈ k :: ks -> x <= foldr Z.max k ks.
Proof.
  induction ks as [| y ks [IHin IHle]]; simpl.
  - split; [left |]. intros x Hx. apply list_elem_of_singleton in Hx. lia.
  - split.
    + destruct (Z.max_spec y (foldr Z.max k ks)) as [[_ ->] | [_ ->]].
      * apply elem_of_cons in IHin as [-> | Hin]; [left | right; right; exact Hin].
      * right. left.
    + intros x Hx.
      assert (Hx' : x = y \/ x ∈ k :: ks).
      { apply elem_of_cons in Hx as [-> | Hx]; [right; left |].
        apply elem_of_cons in Hx as [-> | Hx]; [left; reflexivity |].
        right. right. exact Hx. }
      destruct Hx' as [-> | Hx']; [lia |].
      specialize (IHle x Hx'). lia.
Qed.

(** [min(ledger)] is NULL exactly over the empty table, and otherwise a
    queued ledger that no queued ledger is below. *)
Lemma minLedger_spec (tbl : gmap Z (option string)) :
  match Sql.minLedger tbl with
  | None => tbl = ∅
  | Some lo => is_Some (tbl !! lo) /\ forall k, is_Some (tbl !! k) -> lo <= k
  end.
Proof.
  unfold Sql.minLedger.
  destruct (Sql.ledgers tbl) as [| k ks] eqn:Hks.
  - apply ledgers_nil. exact Hks.
  - destruct (foldr_min_spec k ks) as [Hin Hle]. rewrite <- Hks in Hin, Hle.
    split.
    + apply elem_of_ledgers. exact Hin.
    + intros k' Hk'. apply Hle, elem_of_ledgers. exact Hk'.
Qed.

Lemma maxLedger_spec (tbl : gmap Z (option string)) :
  match Sql.maxLedger tbl with
  | None => tbl = ∅
  | Some hi => is_Some (tbl !! hi) /\ forall k, is_Some (tbl !! k) -> k <= hi
  end.
Proof.
  unfold Sql.maxLedger.
  destruct (Sql.ledgers tbl) as [| k ks] eqn:Hks.
  - apply ledgers_nil. exact Hks.
  - destruct (foldr_max_spec k ks) as [Hin Hle]. rewrite <- Hks in Hin, Hle.
    split.
    + apply elem_of_ledgers. exact Hin.
    + intros k' Hk'. apply Hle, elem_of_ledgers. exact Hk'.
Qed.

Lemma minLedger_empty : Sql.minLedger ∅ = None.
Proof. reflexivity. Qed.

Lemma maxLedger_empty : Sql.maxLedger ∅ = None.
Proof. reflexivity. Qed.

(** The row that [ORDER BY ledger ASC LIMIT 1] selects is the row of any
    ledger that no queued ledger is below. *)
Lemma stateOfLowestLedger_lowest (tbl : gmap Z (option string)) k v :
  tbl !! k = Some v ->
  (forall k', is_Some (tbl !! k') -> k <= k') ->
  Sql.stateOfLowestLedger tbl = Some v.
Proof.
  intros Hk Hlow. unfold Sql.stateOfLowestLedger.
  pose proof (minLedger_spec tbl) as Hmin.
  destruct (Sql.minLedger tbl) as [lo |]; simpl.
  - destruct Hmin as [Hlo Hle].
    assert (lo = k) as ->.
    { specialize (Hle k (mk_is_Some _ _ Hk)). specialize (Hlow lo Hlo). lia. }
    exact Hk.
  - subst tbl. rewrite lookup_empty in Hk. discriminate.
Qed.

Lemma stateOfLowestLedger_empty : Sql.stateOfLowestLedger ∅ = None.
Proof. reflexivity. Qed.

(** ** Running the monad *)

Ltac run :=
  unfold result, exec, modifyHistoryManager, mbind, M_bind, mret, M_ret,
    gets, modify, throw in *;
  cbn [fst snd] in *.

(** ** The publish queue of the history manager *)

Section HistoryManagerFacts.

Context `{HistoryArchiveCodec}.

(** C10.  Over an empty queue [getMinLedgerQueuedToPublish] and
    [getMaxLedgerQueuedToPublish] both return 0; over a queue that is
    not empty they return a queued ledger that no queued ledger is
    below, respectively above.  Neither changes the application. *)
Theorem queued_ledger_bounds (app : Application) :
  (publishqueue app = ∅ ->
     getMinLedgerQueuedToPublish app = (Returned 0, app) /\
     getMaxLedgerQueuedToPublish app = (Returned 0, app)) /\
  (publishqueue app <> ∅ ->
     exists lo hi,
       getMinLedgerQueuedToPublish app = (Returned lo, app) /\
       getMaxLedgerQueuedToPublish app = (Returned hi, app) /\
       is_Some (publishqueue app !! lo) /\
       is_Some (publishqueue app !! hi) /\
       forall k, is_Some (publishqueue app !! k) -> lo <= k <= hi).
Proof.
  unfold getMinLedgerQueuedToPublish, getMaxLedgerQueuedToPublish. run.
  split.
  - intros ->. rewrite minLedger_empty, maxLedger_empty. split; reflexivity.
  - intros Hne.
    pose proof (minLedger_spec (publishqueue app)) as Hmin.
    pose proof (maxLedger_spec (publishqueue app)) as Hmax.
    destruct (Sql.minLedger (publishqueue app)) as [lo |]; [| contradiction].
    destruct (Sql.maxLedger (publishqueue app)) as [hi |]; [| contradiction].
    destruct Hmin as [Hlo Hle], Hmax as [Hhi Hge].
    exists lo, hi. repeat split; auto.
Qed.

Lemma takeSnapshotAndPublish_noop_aux
    (app : Application) (has : HistoryArchiveState) :
  mPublishWork (getHistoryManager app) <> None ->
  takeSnapshotAndPublish has app = (Returned tt, app).
Proof.
  intros Hactive. unfold takeSnapshotAndPublish. run.
  destruct (mPublishWork (getHistoryManager app)); [reflexivity | contradiction].
Qed.

(** C1.  While a publish work is active, [takeSnapshotAndPublish] with
    any snapshot descriptor returns at once: nothing is scheduled and
    the application (queue, bucket index, counters, active work) is as
    it was. *)
Theorem takeSnapshotAndPublish_noop_when_active
    (app : Application) (has : HistoryArchiveState) :
  mPublishWork (getHistoryManager app) <> None ->
  takeSnapshotAndPublish has app = (Returned tt, app).
Proof.
  intros Hactive. unfold takeSnapshotAndPublish. run.
  destruct (mPublishWork (getHistoryManager app)); [reflexivity | contradiction].
Qed.

(** Without an active work it schedules the three-phase pipeline and
    keeps it as the active work. *)
Lemma takeSnapshotAndPublish_activates
    (app : Application) (has : HistoryArchiveState) :
  mPublishWork (getHistoryManager app) = None ->
  let work := mkPublishWork has
    [ResolveSnapshotWork; WriteSnapshotWork; PutSnapshotFilesWork] in
  takeSnapshotAndPublish has app =
    (Returned tt,
     set_historyManager (set_mPublishWork (Some work))
       (set_scheduledWork (fun ws => ws ++ [work]) app)).
Proof.
  intros Hidle work. unfold takeSnapshotAndPublish. run.
  rewrite Hidle. reflexivity.
Qed.

End HistoryManagerFacts.

Lemma takeSnapshotAndPublish_noop_when_active_witness :
  takeSnapshotAndPublish has128 publishing64 = (Returned tt, publishing64).
Proof.
  apply (takeSnapshotAndPublish_noop_when_active publishing64 has128).
  simpl. discriminate.
Defined.

Lemma queued_ledger_bounds_witness :
  exists lo hi,
    getMinLedgerQueuedToPublish queued64and128 = (Returned lo, queued64and128) /\
    getMaxLedgerQueuedToPublish queued64and128 = (Returned hi, queued64and128) /\
    is_Some (publishqueue queued64and128 !! lo) /\
    is_Some (publishqueue queued64and128 !! hi) /\
    forall k, is_Some (publishqueue queued64and128 !! k) -> lo <= k <= hi.
Proof.
  apply (queued_ledger_bounds queued64and128).
  intros Hempty.
  apply (f_equal (fun tbl : gmap Z (option string) => tbl !! 64)) in Hempty.
  vm_compute in Hempty. discriminate.
Defined.

(** ** Draining, confirming and enqueueing *)

Section PublishQueueFacts.

Context `{HistoryArchiveCodec}.

(** C6, as amended.  [publishQueuedHistory] activates nothing, changes
    nothing and returns 0 over an empty queue, while publication is
    disabled, and over a queue whose lowest ledger has a NULL state.
    Over a queue whose lowest ledger has the descriptor [state], with
    publication enabled:  when no publish work is active it schedules the
    pipeline for that descriptor, makes it the active work and returns 1;
    when a publish work is already active it returns 1 and changes
    nothing. *)
Theorem publishQueuedHistory_drains_lowest (app : Application) :
  (publishqueue app = ∅ -> publishQueuedHistory app = (Returned 0, app)) /\
  (mPublicationEnabled (getHistoryManager app) = false ->
     publishQueuedHistory app = (Returned 0, app)) /\
  (forall k,
     publishqueue app !! k = Some None ->
     (forall k', is_Some (publishqueue app !! k') -> k <= k') ->
     publishQueuedHistory app = (Returned 0, app)) /\
  (forall k state,
     publishqueue app !! k = Some (Some state) ->
     (forall k', is_Some (publishqueue app !! k') -> k <= k') ->
     mPublicationEnabled (getHistoryManager app) = true ->
     (mPublishWork (getHistoryManager app) = None ->
        let work := mkPublishWork (fromString state)
          [ResolveSnapshotWork; WriteSnapshotWork; PutSnapshotFilesWork] in
        publishQueuedHistory app =
          (Returned 1,
           set_historyManager (set_mPublishWork (Some work))
             (set_scheduledWork (fun ws => ws ++ [work]) app))) /\
     (mPublishWork (getHistoryManager app) <> None ->
        publishQueuedHistory app = (Returned 1, app))).
Proof.
  split; [| split; [| split]].
  - intros Hempty. unfold publishQueuedHistory. run.
    destruct (mPublicationEnabled (getHistoryManager app)); cbn [negb];
      [| reflexivity].
    rewrite Hempty, stateOfLowestLedger_empty. reflexivity.
  - intros Hoff. unfold publishQueuedHistory. run.
    rewrite Hoff. reflexivity.
  - intros k Hk Hlow.
    pose proof (stateOfLowestLedger_lowest _ _ _ Hk Hlow) as Hrow.
    unfold publishQueuedHistory. run.
    destruct (mPublicationEnabled (getHistoryManager app)); cbn [negb];
      [| reflexivity].
    rewrite Hrow. reflexivity.
  - intros k state Hk Hlow Hen.
    pose proof (stateOfLowestLedger_lowest _ _ _ Hk Hlow) as Hrow.
    split.
    + intros Hidle work. unfold publishQueuedHistory. run.
      rewrite Hen. cbn [negb]. rewrite Hrow.
      rewrite (takeSnapshotAndPublish_activates app (fromString state) Hidle).
      reflexivity.
    + intros Hactive. unfold publishQueuedHistory. run.
      rewrite Hen. cbn [negb]. rewrite Hrow.
      rewrite (takeSnapshotAndPublish_noop_aux app _ Hactive).
      reflexivity.
Qed.

(** The drain never touches the queue, the index or the counters. *)
Lemma publishQueuedHistory_observed (app : Application) :
  observed (exec publishQueuedHistory app) = observed app.
Proof.
  unfold publishQueuedHistory, takeSnapshotAndPublish. run.
  destruct (mPublicationEnabled (getHistoryManager app)); cbn [negb];
    [| reflexivity].
  destruct (Sql.stateOfLowestLedger (publishqueue app)) as [[state |] |];
    try reflexivity.
  destruct (mPublishWork (getHistoryManager app)); reflexivity.
Qed.

Lemma runActions_observed (q : list MainThreadAction) (app : Application) :
  observed
    (exec (foldr (fun a rest => runMainThreadAction a;; rest) (mret tt) q)
       app) = observed app.
Proof.
  revert app. induction q as [| [] q IH]; intros app; [reflexivity |].
  cbn [foldr runMainThreadAction].
  pose proof (publishQueuedHistory_observed app) as Hp.
  specialize (IH (exec publishQueuedHistory app)).
  run. destruct (publishQueuedHistory app) as [[n | e] app'] eqn:Hrun;
    cbn [fst snd] in *.
  - rewrite IH. exact Hp.
  - exact Hp.
Qed.

Lemma runPosted_observed (app : Application) :
  observed (exec runPosted app) = observed app.
Proof.
  unfold runPosted.
  pose proof (runActions_observed (postedOnMainThread app)
                (set_postedOnMainThread (fun _ => []) app)) as Hq.
  run. exact Hq.
Qed.

(** A failed confirmation marks the failure meter and nothing else that
    is observed. *)
Lemma historyPublished_failure (app : Application) ledgerSeq originalBuckets :
  result (historyPublished ledgerSeq originalBuckets false) app = Returned tt /\
  observed (exec (historyPublished ledgerSeq originalBuckets false) app) =
    (publishqueue app,
     mPublishQueueBuckets (getHistoryManager app),
     mPublishSuccess (getHistoryManager app),
     wrap64 (mPublishFailure (getHistoryManager app) + 1)).
Proof. unfold historyPublished. run. split; reflexivity. Qed.

(** A successful confirmation deletes the row, takes the published
    buckets out of the index and marks the success meter. *)
Lemma historyPublished_success (app : Application) ledgerSeq originalBuckets :
  result (historyPublished ledgerSeq originalBuckets true) app = Returned tt /\
  observed (exec (historyPublished ledgerSeq originalBuckets true) app) =
    (delete ledgerSeq (publishqueue app),
     PublishQueueBuckets.removeBuckets originalBuckets
       (mPublishQueueBuckets (getHistoryManager app)),
     wrap64 (mPublishSuccess (getHistoryManager app) + 1),
     mPublishFailure (getHistoryManager app)).
Proof.
  unfold historyPublished, Sql.deleteLedger. run.
  destruct (mEnqueueTimes (getHistoryManager app) !! ledgerSeq);
    split; reflexivity.
Qed.

(** Either confirmation drops the active work and posts one drain. *)
Lemma historyPublished_resets_work (app : Application) ledgerSeq
    originalBuckets success :
  let app' := exec (historyPublished ledgerSeq originalBuckets success) app in
  mPublishWork (getHistoryManager app') = None /\
  postedOnMainThread app' =
    postedOnMainThread app ++ [CallPublishQueuedHistory].
Proof.
  unfold historyPublished, Sql.deleteLedger. run.
  destruct success; [| split; reflexivity].
  destruct (mEnqueueTimes (getHistoryManager app) !! ledgerSeq);
    split; reflexivity.
Qed.

(** C2.  From a queue that holds exactly the snapshots for ledgers 64
    and 128, with both publish counters at 0: confirming ledger 64 as
    failed leaves the queue and the bucket reference index as they were
    and counts one failure; confirming it then as succeeded deletes the
    row of 64, so that only 128 is queued, takes the published buckets
    out of the index and counts one success.  The drain that each
    confirmation posts to the main thread changes none of this. *)
Theorem confirm_failed_then_succeeded (app : Application)
    (s64 s128 : string) (originalBuckets : list string) :
  publishqueue app = {[ 64 := Some s64; 128 := Some s128 ]} ->
  mPublishSuccess (getHistoryManager app) = 0 ->
  mPublishFailure (getHistoryManager app) = 0 ->
  let failed := exec (historyPublished 64 originalBuckets false) app in
  let failedDrained := exec runPosted failed in
  let succeeded :=
    exec (historyPublished 64 originalBuckets true) failedDrained in
  let succeededDrained := exec runPosted succeeded in
  let index := mPublishQueueBuckets (getHistoryManager app) in
  observed failed = (publishqueue app, index, 0, 1) /\
  observed failedDrained = (publishqueue app, index, 0, 1) /\
  observed succeeded =
    ({[ 128 := Some s128 ]},
     PublishQueueBuckets.removeBuckets originalBuckets index, 1, 1) /\
  observed succeededDrained =
    ({[ 128 := Some s128 ]},
     PublishQueueBuckets.removeBuckets originalBuckets index, 1, 1).
Proof.
  intros Hqueue Hsucc Hfail failed failedDrained succeeded succeededDrained
    index.
  assert (Hfailed : observed failed = (publishqueue app, index, 0, 1)).
  { subst failed.
    rewrite (proj2 (historyPublished_failure app 64 originalBuckets)).
    rewrite Hsucc, Hfail. reflexivity. }
  assert (HfailedDrained :
            observed failedDrained = (publishqueue app, index, 0, 1)).
  { subst failedDrained. rewrite runPosted_observed. exact Hfailed. }
  assert (Hsucceeded : observed succeeded =
            ({[ 128 := Some s128 ]},
             PublishQueueBuckets.removeBuckets originalBuckets index, 1, 1)).
  { subst succeeded.
    rewrite (proj2 (historyPublished_success failedDrained 64 originalBuckets)).
    unfold observed in HfailedDrained.
    injection HfailedDrained as -> -> -> ->.
    rewrite Hqueue. rewrite delete_insert_eq.
    rewrite delete_singleton_ne by lia. reflexivity. }
  repeat split; try assumption.
  subst succeededDrained. rewrite runPosted_observed. exact Hsucceeded.
Qed.

(** C5, as amended.  Enqueueing at a ledger that already has a queue
    entry ends in the exception that the failed INSERT throws; no
    second entry is inserted: the table, the queued counter and the
    bucket reference index are as they were. *)
Theorem queueCurrentHistory_duplicate_throws (app : Application) :
  is_Some (publishqueue app !! getLastClosedLedgerNum app) ->
  let app' := exec queueCurrentHistory app in
  (exists e, result queueCurrentHistory app = Thrown e) /\
  publishqueue app' = publishqueue app /\
  mPublishQueued (getHistoryManager app') =
    mPublishQueued (getHistoryManager app) /\
  mPublishQueueBuckets (getHistoryManager app') =
    mPublishQueueBuckets (getHistoryManager app).
Proof.
  intros [row Hrow]. unfold queueCurrentHistory, Sql.insert. run.
  cbn [publishqueue set_historyManager]. rewrite Hrow. cbn [fst snd].
  split; [eexists; reflexivity |]. repeat split.
Qed.

(** At a fresh ledger it returns, with the row inserted, the counter
    advanced and the buckets merged into the index. *)
Lemma queueCurrentHistory_fresh (app : Application) :
  publishqueue app !! getLastClosedLedgerNum app = None ->
  let app' := exec queueCurrentHistory app in
  let has := mkHistoryArchiveState (getLastClosedLedgerNum app)
               (getBucketList app) in
  result queueCurrentHistory app = Returned tt /\
  publishqueue app' =
    <[getLastClosedLedgerNum app := Some (toString has)]> (publishqueue app) /\
  mPublishQueued (getHistoryManager app') =
    wrap64 (mPublishQueued (getHistoryManager app) + 1) /\
  mPublishQueueBuckets (getHistoryManager app') =
    PublishQueueBuckets.addBuckets (allBuckets has)
      (mPublishQueueBuckets (getHistoryManager app)).
Proof.
  intros Hrow. unfold queueCurrentHistory, Sql.insert. run.
  cbn [publishqueue set_historyManager]. rewrite Hrow. cbn [fst snd].
  repeat split.
Qed.

End PublishQueueFacts.

(** *** Worked examples on the fixtures *)

Lemma publishQueuedHistory_drains_lowest_witness :
  @publishQueuedHistory fixtureCodec queued64and128 =
    (Returned 1,
     set_historyManager
       (set_mPublishWork (Some (mkPublishWork has64
          [ResolveSnapshotWork; WriteSnapshotWork; PutSnapshotFilesWork])))
       (set_scheduledWork (fun ws => ws ++ [mkPublishWork has64
          [ResolveSnapshotWork; WriteSnapshotWork; PutSnapshotFilesWork]])
          queued64and128)).
Proof.
  refine (proj1 (proj2 (proj2 (proj2
                   (@publishQueuedHistory_drains_lowest fixtureCodec
                      queued64and128)))
                   64 "has64"%string _ _ _) _).
  - reflexivity.
  - intros k' [v Hv]. unfold queued64and128, publishqueue in Hv.
    destruct (decide (k' = 64)) as [-> | Hne64]; [lia |].
    rewrite lookup_insert_ne in Hv by congruence.
    destruct (decide (k' = 128)) as [-> | Hne128]; [lia |].
    rewrite lookup_singleton_ne in Hv by congruence. discriminate.
  - reflexivity.
  - reflexivity.
Defined.

(** C6, as stated, fails over the queue whose lowest row, for ledger 64,
    has a NULL state: the queue is not empty and row 128 has a
    descriptor, yet the drain returns 0, schedules nothing and leaves no
    publish work active. *)
Lemma drain_over_null_lowest_row_returns_zero :
  publishqueue nullLowest64and128 !! 64 = Some None /\
  publishqueue nullLowest64and128 !! 128 = Some (Some "has128"%string) /\
  @publishQueuedHistory fixtureCodec nullLowest64and128 =
    (Returned 0, nullLowest64and128) /\
  mPublishWork (getHistoryManager nullLowest64and128) = None /\
  ~ @drain_returns_one_when_queued fixtureCodec nullLowest64and128.
Proof.
  split; [reflexivity |]. split; [reflexivity |].
  assert (Hrun : @publishQueuedHistory fixtureCodec nullLowest64and128 =
                   (Returned 0, nullLowest64and128))
    by (vm_compute; reflexivity).
  split; [exact Hrun |]. split; [reflexivity |].
  intros Hclaim.
  assert (Hqueued : publishqueue nullLowest64and128 <> ∅).
  { intros Hempty.
    assert (Hrow : publishqueue nullLowest64and128 !! 64 = Some None)
      by reflexivity.
    rewrite Hempty, lookup_empty in Hrow. discriminate. }
  destruct (Hclaim Hqueued) as [Hone _].
  unfold result in Hone. rewrite Hrun in Hone. discriminate.
Qed.

(** While the pipeline for ledger 64 is active the drain returns 1 over
    the queue of 64 and 128 and schedules nothing: it is not every call
    that schedules the pipeline of the lowest row. *)
Lemma drain_with_active_work_schedules_nothing :
  ~ @drain_activates_lowest fixtureCodec publishing64.
Proof.
  intros Hclaim.
  assert (Hrun : @publishQueuedHistory fixtureCodec publishing64 =
                   (Returned 1, publishing64)) by (vm_compute; reflexivity).
  assert (Hlow : forall k', is_Some (publishqueue publishing64 !! k') -> 64 <= k').
  { intros k' [v Hv]. unfold publishing64, queued64and128 in Hv. simpl in Hv.
    destruct (decide (k' = 64)) as [-> | Hne64]; [lia |].
    rewrite lookup_insert_ne in Hv by congruence.
    destruct (decide (k' = 128)) as [-> | Hne128]; [lia |].
    rewrite lookup_singleton_ne in Hv by congruence. discriminate. }
  pose proof (Hclaim 64 "has64"%string eq_refl Hlow) as Heq.
  rewrite Hrun in Heq.
  apply (f_equal (fun r => length (scheduledWork (snd r)))) in Heq.
  vm_compute in Heq. discriminate.
Qed.

Lemma confirm_failed_then_succeeded_witness :
  observed
    (exec (@runPosted fixtureCodec)
       (exec (historyPublished 64 (allBuckets has64) true)
          (exec (@runPosted fixtureCodec)
             (exec (historyPublished 64 (allBuckets has64) false)
                queued64and128)))) =
  ({[ 128 := Some "has128"%string ]},
   PublishQueueBuckets.removeBuckets (allBuckets has64)
     (mPublishQueueBuckets (getHistoryManager queued64and128)), 1, 1).
Proof.
  pose proof (@confirm_failed_then_succeeded fixtureCodec queued64and128
                "has64"%string "has128"%string (allBuckets has64)
                eq_refl eq_refl eq_refl) as Hthm.
  exact (proj2 (proj2 (proj2 Hthm))).
Defined.

(** In that scenario the bucket that only the snapshot of 64 referenced
    leaves the index and the shared bucket stays, referenced once. *)
Example confirm_keeps_shared_bucket :
  PublishQueueBuckets.removeBuckets (allBuckets has64)
    (mPublishQueueBuckets (getHistoryManager queued64and128)) =
  {[ "b-shared"%string := 1; "b-128"%string := 1 ]}.
Proof. vm_compute. reflexivity. Qed.

Lemma queueCurrentHistory_duplicate_throws_witness :
  exists e, result (@queueCurrentHistory fixtureCodec) queued64and128 = Thrown e.
Proof.
  refine (proj1 (@queueCurrentHistory_duplicate_throws fixtureCodec
                   queued64and128 _)).
  exists (Some "has128"%string). reflexivity.
Defined.

(** C5, as stated, fails on the node that has queued 64 and 128 and whose
    last closed ledger is still 128: enqueueing again throws. *)
Lemma enqueue_duplicate_raises :
  ~ @enqueue_fails_without_exception fixtureCodec queued64and128.
Proof.
  intros Hclaim.
  destruct Hclaim as [[u Hu] _].
  - exists (Some "has128"%string). reflexivity.
  - vm_compute in Hu. discriminate.
Qed.

(** ** Catch-up work *)

(** Whatever ranges the constructors build, the number of
    history-archive-state fetches that [computeCatchupPerformedWork]
    reports is 1, plus 1 more if and only if buckets are applied and the
    first checkpoint of the verify range differs from its last: the test
    of lines 941-942. *)
Lemma fetches_by_verify_span
    (newCatchupRange : Z -> CatchupConfiguration -> Config -> CatchupRange.t)
    (newCheckpointRange : LedgerRange.t -> Config -> CheckpointRange.t)
    (lastClosedLedger : Z) (configuration : CatchupConfiguration)
    (historyManager : Config) :
  let verifyRange :=
    verifyCheckpointRangeOf newCatchupRange newCheckpointRange
      lastClosedLedger configuration historyManager in
  mHistoryArchiveStatesDownloaded
    (computeCatchupPerformedWork newCatchupRange newCheckpointRange
       lastClosedLedger configuration historyManager) =
  1 + (if CatchupRange.mApplyBuckets
            (newCatchupRange lastClosedLedger configuration historyManager) &&
          negb (CheckpointRange.mFirst verifyRange =?
                CheckpointRange.mLast verifyRange)
       then 1 else 0).
Proof.
  unfold computeCatchupPerformedWork, verifyCheckpointRangeOf. cbn.
  destruct (CatchupRange.mApplyBuckets _ && negb _); reflexivity.
Qed.


(** The code builds the verify range from the ledger before the first
    one to apply and the apply range from the first one itself.  For a
    range that begins with a checkpoint (its first ledger is a positive
    multiple of the frequency), holds a ledger at least and ends below
    the last checkpoint of the 32-bit range, the checkpoint spans of the
    two stand as section 4.3 has them: the verify span is the apply span
    extended one checkpoint earlier. *)
Lemma verify_span_one_checkpoint_earlier (cfg : Config)
    (range : CatchupRange.t) (k : Z) :
  let first := CatchupRange.mFirst (CatchupRange.mLedgers range) in
  let count := CatchupRange.mCount (CatchupRange.mLedgers range) in
  let verify :=
    CheckpointRange.ofLedgerRange
      (LedgerRange.mk (sub32 first 1) (CatchupRange.getLast range)) cfg in
  let apply :=
    CheckpointRange.ofLedgerRange
      (LedgerRange.mk first (CatchupRange.getLast range)) cfg in
  1 <= k ->
  first = k * getCheckpointFrequency cfg ->
  1 <= count ->
  first + count <= modulus - getCheckpointFrequency cfg ->
  CheckpointRange.mFirst verify = first - 1 /\
  CheckpointRange.mFirst verify + getCheckpointFrequency cfg =
    CheckpointRange.mFirst apply /\
  CheckpointRange.mFirst apply <= CheckpointRange.mLast apply /\
  CheckpointRange.mLast verify = CheckpointRange.mLast apply /\
  verifyExtendsApplyEarlier verify apply.
Proof.
  intros first count verify apply Hk Hfirst Hcount Htop.
  pose proof (frequency_pos cfg) as Hpos.
  assert (Hlast : CatchupRange.getLast range = first + count - 1).
  { unfold CatchupRange.getLast. fold first count. rewrite sub32_add32.
    unfold wrap. apply Z.mod_small. rewrite modulus_eq in *. nia. }
  assert (Hbefore : sub32 first 1 = first - 1).
  { unfold sub32, wrap. apply Z.mod_small. rewrite modulus_eq in *. nia. }
  assert (Hv : checkpointContainingLedger cfg (first - 1) = first - 1).
  { rewrite containing_low by (rewrite modulus_eq in *; nia).
    replace (first - 1) with ((k - 1) * getCheckpointFrequency cfg +
                              (getCheckpointFrequency cfg - 1)) at 1 by lia.
    rewrite Z.div_add_l by lia.
    rewrite Z.div_small by lia. lia. }
  assert (Ha : checkpointContainingLedger cfg first =
               first + getCheckpointFrequency cfg - 1).
  { rewrite containing_low by (rewrite modulus_eq in *; nia).
    rewrite Hfirst at 1. rewrite Z.div_mul by lia. lia. }
  assert (Hl : first + getCheckpointFrequency cfg - 1 <=
               checkpointContainingLedger cfg (first + count - 1)).
  { rewrite containing_low by (rewrite modulus_eq in *; nia).
    assert (k <= (first + count - 1) / getCheckpointFrequency cfg).
    { apply Z.div_le_lower_bound; lia. }
    nia. }
  unfold verifyExtendsApplyEarlier. subst verify apply.
  unfold CheckpointRange.ofLedgerRange.
  cbn [CheckpointRange.mFirst CheckpointRange.mLast LedgerRange.mFirst
       LedgerRange.mLast].
  rewrite Hbefore, Hlast, Hv, Ha. repeat split; lia.
Qed.

(** The constructors modelled from the design document give such ranges
    for every catch-up that restores buckets: a target more than [n]
    ledgers past the last closed one, a window of at least one ledger
    that begins after the first checkpoint, and a target below the last
    checkpoint of the 32-bit range. *)
Lemma modelled_ranges_verify_extends_apply (cfg : Config)
    (lastClosedLedger target n : Z) :
  let configuration := mkCatchupConfiguration target (ReplayRecent n) in
  0 <= lastClosedLedger ->
  1 <= n < target - lastClosedLedger ->
  getCheckpointFrequency cfg <= target - n + 1 ->
  target < modulus - getCheckpointFrequency cfg ->
  CatchupRange.mApplyBuckets
    (CatchupRange.ofConfiguration lastClosedLedger configuration cfg) = true /\
  verifyExtendsApplyEarlier
    (verifyCheckpointRangeOf CatchupRange.ofConfiguration
       CheckpointRange.ofLedgerRange lastClosedLedger configuration cfg)
    (applyCheckpointRangeOf CatchupRange.ofConfiguration
       CheckpointRange.ofLedgerRange lastClosedLedger configuration cfg).
Proof.
  intros configuration Hlcl Hn Hwindow Htop.
  pose proof (frequency_pos cfg) as Hpos.
  set (F := getCheckpointFrequency cfg) in *.
  set (k := (target - n + 1) / F).
  assert (Hk : 1 <= k).
  { subst k. apply Z.div_le_lower_bound; lia. }
  assert (Hfloor : k * F <= target - n + 1 < k * F + F).
  { subst k. pose proof (Z.mul_div_le (target - n + 1) F Hpos).
    pose proof (Z.mul_succ_div_gt (target - n + 1) F Hpos). lia. }
  assert (Hrange :
    CatchupRange.ofConfiguration lastClosedLedger configuration cfg =
    CatchupRange.mk (CatchupRange.mkLedgers (k * F) (target - k * F + 1))
      true).
  { unfold CatchupRange.ofConfiguration, configuration.
    cbn [window toLedger].
    assert (Hgap : sub32 target lastClosedLedger = target - lastClosedLedger).
    { unfold sub32, wrap. apply Z.mod_small. rewrite modulus_eq in *. lia. }
    rewrite Hgap.
    destruct (Z.leb_spec (target - lastClosedLedger) n) as [Hle | _]; [lia |].
    assert (Hstart : add32 (sub32 target n) 1 = target - n + 1).
    { unfold add32, sub32, wrap. rewrite Zplus_mod_idemp_l.
      apply Z.mod_small. rewrite modulus_eq in *. lia. }
    rewrite Hstart.
    assert (Hprev : prevCheckpointLedger cfg (target - n + 1) = k * F).
    { unfold prevCheckpointLedger, mul32, div32, wrap. fold F. fold k.
      apply Z.mod_small. rewrite modulus_eq in *. lia. }
    rewrite Hprev.
    assert (Hcount : add32 (sub32 target (k * F)) 1 = target - k * F + 1).
    { unfold add32, sub32, wrap. rewrite Zplus_mod_idemp_l.
      apply Z.mod_small. rewrite modulus_eq in *. lia. }
    rewrite Hcount. reflexivity. }
  split; [rewrite Hrange; reflexivity |].
  unfold verifyCheckpointRangeOf, applyCheckpointRangeOf. rewrite Hrange.
  apply (verify_span_one_checkpoint_earlier cfg
           (CatchupRange.mk
              (CatchupRange.mkLedgers (k * F) (target - k * F + 1)) true) k);
    cbn [CatchupRange.mFirst CatchupRange.mCount CatchupRange.mLedgers];
    fold F; lia.
Qed.

(** The constructors modelled from the design document on its example:
    frequency 64, last closed 63, target 200. *)
Example catchup_range_full_replay :
  CatchupRange.ofConfiguration 63 (mkCatchupConfiguration 200 ReplayEverything)
    productionConfig =
  CatchupRange.mk (CatchupRange.mkLedgers 64 137) false.
Proof. reflexivity. Qed.

Example catchup_range_recent_64 :
  CatchupRange.ofConfiguration 63 (mkCatchupConfiguration 200 (ReplayRecent 64))
    productionConfig =
  CatchupRange.mk (CatchupRange.mkLedgers 128 73) true.
Proof. reflexivity. Qed.


(** * Further properties *)

(** ** Checkpoint arithmetic, beyond the containing checkpoint *)

(** As [solve32], with the zero tests of the hypotheses split as well. *)
Ltac solve32_in cfg :=
  unfold32; freq_cases cfg;
  repeat match goal with
         | |- context [?x =? 0] => destruct (Z.eqb_spec x 0)
         | H : context [?x =? 0] |- _ => destruct (Z.eqb_spec x 0)
         end;
  Z.div_mod_to_equations; lia.

(** X1.  [prevCheckpointLedger l] is the largest multiple of the
    frequency that is not above [l]; nothing wraps. *)
Theorem prevCheckpoint_floor cfg l :
  in_range l ->
  let freq := getCheckpointFrequency cfg in
  let r := prevCheckpointLedger cfg l in
  r mod freq = 0 /\ r <= l < r + freq.
Proof. intros Hl freq r. subst freq r. solve32 cfg. Qed.

Lemma prevCheckpoint_floor_witness :
  prevCheckpointLedger productionConfig 200 <= 200 <
    prevCheckpointLedger productionConfig 200 + 64.
Proof.
  pose proof (prevCheckpoint_floor productionConfig 200
                ltac:(unfold in_range; concrete_range)) as Hthm.
  exact (proj2 Hthm).
Defined.

(** X2.  For a ledger [l] with [0 < l <= 2^32 - freq],
    [nextCheckpointLedger l] is the smallest multiple of the frequency
    that is not below [l]. *)
Theorem nextCheckpoint_ceiling cfg l :
  0 < l <= modulus - getCheckpointFrequency cfg ->
  let freq := getCheckpointFrequency cfg in
  let r := nextCheckpointLedger cfg l in
  r mod freq = 0 /\ l <= r < l + freq.
Proof. intros Hl freq r. subst freq r. solve32 cfg. Qed.

Lemma nextCheckpoint_ceiling_witness :
  200 <= nextCheckpointLedger productionConfig 200 < 200 + 64.
Proof.
  pose proof (nextCheckpoint_ceiling productionConfig 200
                ltac:(concrete_range)) as Hthm.
  exact (proj2 Hthm).
Defined.

(** X3.  In the last [freq - 1] ledgers of the 32-bit range,
    [ledger + freq - 1] wraps and [nextCheckpointLedger] answers 0, which
    is below the ledger. *)
Theorem nextCheckpoint_wraps_to_zero cfg l :
  modulus - getCheckpointFrequency cfg < l < modulus ->
  nextCheckpointLedger cfg l = 0.
Proof. intros Hl. solve32 cfg. Qed.

Lemma nextCheckpoint_wraps_to_zero_witness :
  nextCheckpointLedger productionConfig UINT32_MAX = 0.
Proof.
  apply (nextCheckpoint_wraps_to_zero productionConfig UINT32_MAX).
  concrete_range.
Defined.

(** X4.  The test [seq == nextCheckpointLedger(seq)], by which
    [maybeQueueHistoryCheckpoint] and the test utilities recognise the
    first ledger of a checkpoint, holds exactly for the positive multiples
    of the frequency. *)
Theorem nextCheckpoint_fixed_point cfg seq :
  in_range seq ->
  (seq = nextCheckpointLedger cfg seq <->
   0 < seq /\ seq mod getCheckpointFrequency cfg = 0).
Proof. intros Hl. split; intros Hfix; solve32_in cfg. Qed.

Lemma nextCheckpoint_fixed_point_witness :
  128 = nextCheckpointLedger productionConfig 128.
Proof.
  apply (nextCheckpoint_fixed_point productionConfig 128).
  - unfold in_range. concrete_range.
  - split; [lia | reflexivity].
Defined.

(** X5.  Below the last ledger, [checkpointContainingLedger] is
    monotone. *)
Theorem checkpointContaining_monotone cfg a b :
  0 <= a <= b -> b < UINT32_MAX ->
  checkpointContainingLedger cfg a <= checkpointContainingLedger cfg b.
Proof. intros Hab Hb. solve32 cfg. Qed.

Lemma checkpointContaining_monotone_witness :
  checkpointContainingLedger productionConfig 63 <=
  checkpointContainingLedger productionConfig 64.
Proof.
  apply (checkpointContaining_monotone productionConfig 63 64).
  - lia.
  - concrete_range.
Defined.

(** X6.  Below the last ledger, the checkpoint of [l] is the [freq]
    ledgers from [prevCheckpointLedger l] to
    [checkpointContainingLedger l]. *)
Theorem checkpoint_span cfg l :
  0 <= l < UINT32_MAX ->
  checkpointContainingLedger cfg l =
    prevCheckpointLedger cfg l + getCheckpointFrequency cfg - 1 /\
  prevCheckpointLedger cfg l <= l <= checkpointContainingLedger cfg l.
Proof. intros Hl. split; solve32 cfg. Qed.

Lemma checkpoint_span_witness :
  checkpointContainingLedger productionConfig 200 =
    prevCheckpointLedger productionConfig 200 + 64 - 1.
Proof.
  pose proof (checkpoint_span productionConfig 200 ltac:(concrete_range))
    as Hthm.
  exact (proj1 Hthm).
Defined.

(** X7.  Below the last ledger, the ledgers that
    [checkpointContainingLedger] leaves in place are exactly those whose
    successor is a multiple of the frequency. *)
Theorem checkpointContaining_fixed_point cfg l :
  0 <= l < UINT32_MAX ->
  (checkpointContainingLedger cfg l = l <->
   (l + 1) mod getCheckpointFrequency cfg = 0).
Proof. intros Hl. split; intros Hfix; solve32_in cfg. Qed.

Lemma checkpointContaining_fixed_point_witness :
  checkpointContainingLedger productionConfig 127 = 127.
Proof.
  apply (checkpointContaining_fixed_point productionConfig 127).
  - concrete_range.
  - reflexivity.
Defined.

(** X8.  For a checkpoint index [i] with [1 <= i] and [i * freq < 2^32],
    [getLastCheckpointLedger i] is [i * freq - 1]: a checkpoint boundary
    that [checkpointContainingLedger] leaves in place, whose checkpoint
    starts at [(i - 1) * freq], and after which the next ledger is the one
    that [nextCheckpointLedger] leaves in place. *)
Theorem getLastCheckpointLedger_boundary cfg i :
  1 <= i -> i * getCheckpointFrequency cfg < modulus ->
  let freq := getCheckpointFrequency cfg in
  let r := getLastCheckpointLedger cfg i in
  r = i * freq - 1 /\
  checkpointContainingLedger cfg r = r /\
  prevCheckpointLedger cfg r = (i - 1) * freq /\
  nextCheckpointLedger cfg (r + 1) = r + 1.
Proof.
  intros Hi Hrange freq r. subst freq r.
  assert (Hr : getLastCheckpointLedger cfg i =
               i * getCheckpointFrequency cfg - 1).
  { unfold getLastCheckpointLedger. solve32 cfg. }
  rewrite Hr. split; [reflexivity |].
  split; [| split]; solve32 cfg.
Qed.

Lemma getLastCheckpointLedger_boundary_witness :
  getLastCheckpointLedger productionConfig 2 = 127.
Proof.
  pose proof (getLastCheckpointLedger_boundary productionConfig 2
                ltac:(lia) ltac:(concrete_range)) as Hthm.
  exact (proj1 Hthm).
Defined.

(** ** Queueing at checkpoints *)

Section QueueingFacts.

Context `{HistoryArchiveCodec}.

(** X9.  [maybeQueueHistoryCheckpoint] returns false and changes nothing
    when the ledger after the last closed one is not the first of a
    checkpoint (also when the last closed ledger is [2^32 - 1] and its
    successor wraps to 0), and when no history archive is writable. *)
Theorem maybeQueueHistoryCheckpoint_declines (app : Application) :
  in_range (getLastClosedLedgerNum app) ->
  (getLastClosedLedgerNum app + 1) mod getCheckpointFrequency (getConfig app) <> 0
    \/ getLastClosedLedgerNum app = UINT32_MAX
    \/ hasAnyWritableHistoryArchive app = false ->
  maybeQueueHistoryCheckpoint app = (Returned false, app).
Proof.
  intros Hlcl Hcase. unfold maybeQueueHistoryCheckpoint. run.
  destruct (Z.eqb_spec (add32 (getLastClosedLedgerNum app) 1)
              (nextCheckpointLedger (getConfig app)
                 (add32 (getLastClosedLedgerNum app) 1))) as [Heq | Hne];
    cbn [negb]; [| reflexivity].
  destruct (hasAnyWritableHistoryArchive app) eqn:Hw; cbn [negb];
    [| reflexivity].
  exfalso. destruct Hcase as [Hmod | [Hmax | Hno]]; [| | discriminate].
  - revert Heq Hmod. generalize (getConfig app) as cfg.
    generalize dependent (getLastClosedLedgerNum app).
    intros l Hl cfg Heq Hmod. solve32_in cfg.
  - rewrite Hmax in Heq. revert Heq. generalize (getConfig app) as cfg.
    intros cfg Heq. solve32_in cfg.
Qed.

(** X10.  Whenever [maybeQueueHistoryCheckpoint] returns true, the last
    closed ledger is a checkpoint boundary, one that
    [checkpointContainingLedger] leaves in place; it had no queue entry
    before, and it has the serialised snapshot of that ledger and of the
    current bucket list as its entry afterwards. *)
Theorem maybeQueueHistoryCheckpoint_queues_boundary (app : Application) :
  in_range (getLastClosedLedgerNum app) ->
  result maybeQueueHistoryCheckpoint app = Returned true ->
  let lcl := getLastClosedLedgerNum app in
  let cfg := getConfig app in
  is_checkpoint_boundary (getCheckpointFrequency cfg) lcl /\
  checkpointContainingLedger cfg lcl = lcl /\
  hasAnyWritableHistoryArchive app = true /\
  publishqueue app !! lcl = None /\
  publishqueue (exec maybeQueueHistoryCheckpoint app) !! lcl =
    Some (Some (toString (mkHistoryArchiveState lcl (getBucketList app)))).
Proof.
  intros Hlcl Hret lcl cfg. subst lcl cfg.
  unfold maybeQueueHistoryCheckpoint, queueCurrentHistory, Sql.insert in *.
  run.
  destruct (Z.eqb_spec (add32 (getLastClosedLedgerNum app) 1)
              (nextCheckpointLedger (getConfig app)
                 (add32 (getLastClosedLedgerNum app) 1))) as [Heq | Hne];
    cbn [negb] in *; [| discriminate].
  destruct (hasAnyWritableHistoryArchive app) eqn:Hw; cbn [negb] in *;
    [| discriminate].
  cbn [publishqueue set_historyManager fst snd] in *.
  destruct (publishqueue app !! getLastClosedLedgerNum app) eqn:Hrow;
    cbn [fst snd] in *; [discriminate |].
  assert (Harith : (getLastClosedLedgerNum app + 1)
                     mod getCheckpointFrequency (getConfig app) = 0 /\
                   getLastClosedLedgerNum app < UINT32_MAX).
  { revert Heq. generalize (getConfig app) as cfg.
    generalize dependent (getLastClosedLedgerNum app).
    intros l Hl _ cfg Heq. split; solve32_in cfg. }
  destruct Harith as [Hmod Hlt].
  split; [| split; [| split; [| split]]].
  - exists ((getLastClosedLedgerNum app + 1) /
            getCheckpointFrequency (getConfig app)).
    revert Hmod. generalize (getConfig app) as cfg.
    generalize dependent (getLastClosedLedgerNum app).
    intros l Hl _ _ _ cfg Hmod. solve32_in cfg.
  - revert Hmod. generalize (getConfig app) as cfg.
    generalize dependent (getLastClosedLedgerNum app).
    intros l Hl _ _ Hlt cfg Hmod. solve32_in cfg.
  - reflexivity.
  - reflexivity.
  - cbn. apply lookup_insert_eq.
Qed.

(** The drain over a queue whose lowest row holds [state], with
    publication enabled and no work active. *)
Lemma publishQueuedHistory_idle (app : Application) k state :
  publishqueue app !! k = Some (Some state) ->
  (forall k', is_Some (publishqueue app !! k') -> k <= k') ->
  mPublicationEnabled (getHistoryManager app) = true ->
  mPublishWork (getHistoryManager app) = None ->
  let work := mkPublishWork (fromString state)
    [ResolveSnapshotWork; WriteSnapshotWork; PutSnapshotFilesWork] in
  publishQueuedHistory app =
    (Returned 1,
     set_historyManager (set_mPublishWork (Some work))
       (set_scheduledWork (fun ws => ws ++ [work]) app)).
Proof.
  intros Hk Hlow Hen Hidle work.
  pose proof (stateOfLowestLedger_lowest _ _ _ Hk Hlow) as Hrow.
  unfold publishQueuedHistory. run.
  rewrite Hen. cbn [negb]. rewrite Hrow.
  rewrite (takeSnapshotAndPublish_activates app (fromString state) Hidle).
  reflexivity.
Qed.

Lemma publishQueuedHistory_nothing_queued (app : Application) :
  publishqueue app = ∅ -> publishQueuedHistory app = (Returned 0, app).
Proof.
  intros Hempty. unfold publishQueuedHistory. run.
  destruct (mPublicationEnabled (getHistoryManager app)); cbn [negb];
    [| reflexivity].
  rewrite Hempty, stateOfLowestLedger_empty. reflexivity.
Qed.

Lemma publishQueuedHistory_null_state (app : Application) k :
  publishqueue app !! k = Some None ->
  (forall k', is_Some (publishqueue app !! k') -> k <= k') ->
  publishQueuedHistory app = (Returned 0, app).
Proof.
  intros Hk Hlow.
  pose proof (stateOfLowestLedger_lowest _ _ _ Hk Hlow) as Hrow.
  unfold publishQueuedHistory. run.
  destruct (mPublicationEnabled (getHistoryManager app)); cbn [negb];
    [| reflexivity].
  rewrite Hrow. reflexivity.
Qed.

(** X11.  Enqueue and drain round trip: on a node whose last closed
    ledger is not queued yet, with no queued ledger below it, no publish
    work active and publication enabled, enqueueing the current history
    and then draining activates the pipeline for exactly the snapshot
    that was enqueued (the last closed ledger and the current bucket
    list), provided the snapshot survives its serialisation. *)
Theorem enqueue_then_drain (app : Application) :
  let has := mkHistoryArchiveState (getLastClosedLedgerNum app)
               (getBucketList app) in
  fromString (toString has) = has ->
  publishqueue app !! getLastClosedLedgerNum app = None ->
  (forall k, is_Some (publishqueue app !! k) -> getLastClosedLedgerNum app <= k) ->
  mPublicationEnabled (getHistoryManager app) = true ->
  mPublishWork (getHistoryManager app) = None ->
  let app' := exec (queueCurrentHistory;; publishQueuedHistory) app in
  let work := mkPublishWork has
    [ResolveSnapshotWork; WriteSnapshotWork; PutSnapshotFilesWork] in
  result (queueCurrentHistory;; publishQueuedHistory) app = Returned 1 /\
  mPublishWork (getHistoryManager app') = Some work /\
  scheduledWork app' = scheduledWork app ++ [work].
Proof.
  intros has Hcodec Hfresh Hlow Hen Hidle app' work.
  set (queued := exec queueCurrentHistory app).
  assert (Hq : queueCurrentHistory app = (Returned tt, queued)).
  { subst queued. unfold queueCurrentHistory, Sql.insert. run.
    cbn [publishqueue set_historyManager]. rewrite Hfresh. reflexivity. }
  assert (Htbl : publishqueue queued =
                 <[getLastClosedLedgerNum app := Some (toString has)]>
                   (publishqueue app)).
  { subst queued. unfold queueCurrentHistory, Sql.insert. run.
    cbn [publishqueue set_historyManager]. rewrite Hfresh. reflexivity. }
  assert (Hfields : mPublicationEnabled (getHistoryManager queued) = true /\
                    mPublishWork (getHistoryManager queued) = None /\
                    scheduledWork queued = scheduledWork app).
  { subst queued. unfold queueCurrentHistory, Sql.insert. run.
    cbn [publishqueue set_historyManager]. rewrite Hfresh. cbn.
    auto. }
  destruct Hfields as (Hen' & Hidle' & Hsched).
  pose proof (publishQueuedHistory_idle queued (getLastClosedLedgerNum app)
                (toString has)) as Hdrain.
  rewrite Htbl in Hdrain. rewrite lookup_insert_eq in Hdrain.
  specialize (Hdrain eq_refl).
  assert (Hlow' : forall k',
             is_Some (<[getLastClosedLedgerNum app := Some (toString has)]>
                        (publishqueue app) !! k') ->
             getLastClosedLedgerNum app <= k').
  { intros k' Hk'.
    destruct (decide (getLastClosedLedgerNum app = k')) as [<- | Hne]; [lia |].
    rewrite lookup_insert_ne in Hk' by exact Hne. apply Hlow, Hk'. }
  specialize (Hdrain Hlow' Hen' Hidle'). cbn zeta in Hdrain.
  rewrite Hcodec in Hdrain.
  subst app'. unfold result, exec, mbind, M_bind.
  rewrite Hq, Hdrain. cbn. rewrite Hsched. auto.
Qed.

End QueueingFacts.

(** ** Confirming and driving the queue *)

Section DrivingFacts.

Context `{HistoryArchiveCodec}.

(** What a confirmation leaves behind. *)
Lemma historyPublished_state (app : Application) ledgerSeq originalBuckets
    success :
  let app' := exec (historyPublished ledgerSeq originalBuckets success) app in
  historyPublished ledgerSeq originalBuckets success app = (Returned tt, app') /\
  publishqueue app' =
    (if success then delete ledgerSeq (publishqueue app) else publishqueue app) /\
  mPublishWork (getHistoryManager app') = None /\
  mPublicationEnabled (getHistoryManager app') =
    mPublicationEnabled (getHistoryManager app) /\
  scheduledWork app' = scheduledWork app /\
  postedOnMainThread app' =
    postedOnMainThread app ++ [CallPublishQueuedHistory].
Proof.
  unfold historyPublished, Sql.deleteLedger. run.
  destruct success; [| repeat split].
  destruct (mEnqueueTimes (getHistoryManager app) !! ledgerSeq);
    repeat split.
Qed.

(** The main thread with one drain posted. *)
Lemma runPosted_one_drain (app : Application) :
  postedOnMainThread app = [CallPublishQueuedHistory] ->
  runPosted app =
    match publishQueuedHistory (set_postedOnMainThread (fun _ => []) app) with
    | (Returned _, app') => (Returned tt, app')
    | (Thrown e, app') => (Thrown e, app')
    end.
Proof.
  intros Hq. unfold runPosted. run. rewrite Hq.
  cbn [foldr runMainThreadAction]. run.
  destruct (publishQueuedHistory _) as [[n | e] app']; reflexivity.
Qed.

(** X12.  The queue drives itself: with publication enabled and nothing
    else posted to the main thread, after a confirmation of either
    outcome and the drain it posts, the queue is what the confirmation
    left (the confirmed row deleted on success, everything kept on
    failure).  If the row of the lowest ledger left has a state, the
    pipeline for that state has been scheduled and is the active work; if
    no row is left, or the row of the lowest ledger left has a NULL
    state, nothing has been scheduled and no work is active. *)
Theorem confirmation_drives_next (app : Application) (ledgerSeq : Z)
    (originalBuckets : list string) (success : bool) :
  postedOnMainThread app = [] ->
  mPublicationEnabled (getHistoryManager app) = true ->
  let remaining :=
    if success then delete ledgerSeq (publishqueue app)
    else publishqueue app in
  let app' :=
    exec (historyPublished ledgerSeq originalBuckets success;; runPosted) app in
  publishqueue app' = remaining /\
  postedOnMainThread app' = [] /\
  (remaining = ∅ ->
     mPublishWork (getHistoryManager app') = None /\
     scheduledWork app' = scheduledWork app) /\
  (forall k,
     remaining !! k = Some None ->
     (forall j, is_Some (remaining !! j) -> k <= j) ->
     mPublishWork (getHistoryManager app') = None /\
     scheduledWork app' = scheduledWork app) /\
  (forall k state,
     remaining !! k = Some (Some state) ->
     (forall j, is_Some (remaining !! j) -> k <= j) ->
     let work := mkPublishWork (fromString state)
       [ResolveSnapshotWork; WriteSnapshotWork; PutSnapshotFilesWork] in
     mPublishWork (getHistoryManager app') = Some work /\
     scheduledWork app' = scheduledWork app ++ [work]).
Proof.
  intros Hposted Hen remaining app'.
  destruct (historyPublished_state app ledgerSeq originalBuckets success)
    as (Hrun & Htbl & Hwork & Hen' & Hsched & Hq).
  set (confirmed := exec (historyPublished ledgerSeq originalBuckets success)
                      app) in *.
  rewrite Hposted, app_nil_l in Hq.
  set (cleared := set_postedOnMainThread (fun _ => []) confirmed).
  assert (Happ' : app' = exec publishQueuedHistory cleared).
  { subst app'. unfold exec at 1. unfold mbind, M_bind. rewrite Hrun.
    rewrite (runPosted_one_drain confirmed Hq). fold cleared.
    unfold exec. destruct (publishQueuedHistory cleared) as [[n | e] a];
      reflexivity. }
  assert (Hobs : publishqueue app' = remaining).
  { rewrite Happ'.
    pose proof (publishQueuedHistory_observed cleared) as Hobs.
    unfold observed in Hobs. injection Hobs as -> _ _ _. exact Htbl. }
  split; [exact Hobs |].
  assert (Hcases :
    (remaining = ∅ -> app' = cleared) /\
    (forall k,
       remaining !! k = Some None ->
       (forall j, is_Some (remaining !! j) -> k <= j) ->
       app' = cleared) /\
    (forall k state,
       remaining !! k = Some (Some state) ->
       (forall j, is_Some (remaining !! j) -> k <= j) ->
       app' =
         set_historyManager
           (set_mPublishWork (Some (mkPublishWork (fromString state)
              [ResolveSnapshotWork; WriteSnapshotWork; PutSnapshotFilesWork])))
           (set_scheduledWork (fun ws => ws ++ [mkPublishWork (fromString state)
              [ResolveSnapshotWork; WriteSnapshotWork; PutSnapshotFilesWork]])
              cleared))).
  { split; [| split].
    - intros Hempty. rewrite Happ'. unfold exec.
      rewrite publishQueuedHistory_nothing_queued; [reflexivity |].
      cbn. rewrite Htbl. exact Hempty.
    - intros k Hk Hlow. rewrite Happ'. unfold exec.
      rewrite (publishQueuedHistory_null_state cleared k); [reflexivity | |].
      + cbn. rewrite Htbl. exact Hk.
      + cbn. rewrite Htbl. exact Hlow.
    - intros k state Hk Hlow. rewrite Happ'. unfold exec.
      rewrite (publishQueuedHistory_idle cleared k state); [reflexivity | | | |].
      + cbn. rewrite Htbl. exact Hk.
      + cbn. rewrite Htbl. exact Hlow.
      + cbn. rewrite Hen'. exact Hen.
      + cbn. exact Hwork. }
  destruct Hcases as (Hnone & Hnull & Hsome).
  split; [| split; [| split]].
  - destruct (decide (remaining = ∅)) as [Hempty | Hne].
    + rewrite (Hnone Hempty). reflexivity.
    + pose proof (minLedger_spec remaining) as Hmin.
      destruct (Sql.minLedger remaining) as [lo |] eqn:Hlo; [| contradiction].
      destruct Hmin as [[[state |] Hrow] Hle].
      * rewrite (Hsome lo state Hrow Hle). reflexivity.
      * rewrite (Hnull lo Hrow Hle). reflexivity.
  - intros Hempty. rewrite (Hnone Hempty). cbn. split; assumption.
  - intros k Hk Hlow. rewrite (Hnull k Hk Hlow). cbn. split; assumption.
  - intros k state Hk Hlow work. rewrite (Hsome k state Hk Hlow). cbn.
    rewrite Hsched. split; reflexivity.
Qed.

(** X13.  Confirming success for a ledger that has no queue entry deletes
    nothing and raises nothing: the queue is as it was, yet a success is
    counted and the given buckets are still taken out of the reference
    index. *)
Theorem historyPublished_unqueued_ledger (app : Application) ledgerSeq
    originalBuckets :
  publishqueue app !! ledgerSeq = None ->
  result (historyPublished ledgerSeq originalBuckets true) app = Returned tt /\
  observed (exec (historyPublished ledgerSeq originalBuckets true) app) =
    (publishqueue app,
     PublishQueueBuckets.removeBuckets originalBuckets
       (mPublishQueueBuckets (getHistoryManager app)),
     wrap64 (mPublishSuccess (getHistoryManager app) + 1),
     mPublishFailure (getHistoryManager app)).
Proof.
  intros Hrow.
  destruct (historyPublished_success app ledgerSeq originalBuckets)
    as [Hret Hobs].
  split; [exact Hret |]. rewrite Hobs.
  rewrite delete_id by exact Hrow. reflexivity.
Qed.

(** X14.  Enqueue and confirm round trip.  A checkpoint that is enqueued
    at a fresh ledger when the clock reads [t0], confirmed as failed, and
    confirmed as succeeded when the clock reads [t1], leaves the queue
    table and the enqueue times as they were before the enqueue; the
    timer has received the one duration [t1 - t0], measured from the
    enqueue and not from the retry, and each counter has advanced by
    one. *)
Theorem enqueue_confirm_round_trip (app : Application)
    (originalBuckets : list string) (t1 : Z) :
  let lcl := getLastClosedLedgerNum app in
  publishqueue app !! lcl = None ->
  mEnqueueTimes (getHistoryManager app) !! lcl = None ->
  let queued := exec queueCurrentHistory app in
  let failed := exec (historyPublished lcl originalBuckets false) queued in
  let published :=
    exec (historyPublished lcl originalBuckets true)
      (set_steadyClockNow t1 failed) in
  publishqueue published = publishqueue app /\
  mEnqueueTimes (getHistoryManager published) =
    mEnqueueTimes (getHistoryManager app) /\
  mEnqueueToPublishTimer (getHistoryManager published) =
    mEnqueueToPublishTimer (getHistoryManager app) ++ [t1 - steadyClockNow app] /\
  mPublishQueued (getHistoryManager published) =
    wrap64 (mPublishQueued (getHistoryManager app) + 1) /\
  mPublishFailure (getHistoryManager published) =
    wrap64 (mPublishFailure (getHistoryManager app) + 1) /\
  mPublishSuccess (getHistoryManager published) =
    wrap64 (mPublishSuccess (getHistoryManager app) + 1).
Proof.
  intros lcl Hrow Htime queued failed published.
  subst published failed queued lcl.
  unfold queueCurrentHistory, historyPublished, Sql.insert, Sql.deleteLedger.
  run. cbn [publishqueue set_historyManager]. rewrite Hrow.
  cbn -[lookup insert delete wrap64 Z.sub].
  rewrite Htime. rewrite lookup_insert_eq.
  cbn -[lookup insert delete wrap64 Z.sub].
  rewrite ?Htime, ?delete_insert_eq.
  rewrite (delete_id _ _ Hrow), (delete_id _ _ Htime).
  repeat split.
Qed.

(** X15.  What the value returned by [publishQueuedHistory] tells:
    whenever the call returns, the value is 0 or 1; it is 1 exactly when
    publication is enabled and the row of the lowest queued ledger has a
    state that is not NULL, whether or not a pipeline was started; and a
    call that returns 0 has changed nothing. *)
Theorem publishQueuedHistory_returns (app app' : Application) (n : Z) :
  publishQueuedHistory app = (Returned n, app') ->
  (n = 0 \/ n = 1) /\
  (n = 1 <->
   mPublicationEnabled (getHistoryManager app) = true /\
   exists k state,
     publishqueue app !! k = Some (Some state) /\
     forall j, is_Some (publishqueue app !! j) -> k <= j) /\
  (n = 0 -> app' = app).
Proof.
  intros Hrun.
  destruct (mPublicationEnabled (getHistoryManager app)) eqn:Hen.
  2: { assert (Hoff : publishQueuedHistory app = (Returned 0, app)).
       { unfold publishQueuedHistory. run. rewrite Hen. reflexivity. }
       rewrite Hoff in Hrun. injection Hrun as <- <-.
       split; [left; reflexivity |]. split; [| reflexivity].
       split; [lia | intros [Habs _]; discriminate]. }
  pose proof (minLedger_spec (publishqueue app)) as Hmin.
  destruct (Sql.minLedger (publishqueue app)) as [lo |] eqn:Hlo.
  - destruct Hmin as [[row Hrow] Hle]. destruct row as [state |].
    + assert (Hone : result publishQueuedHistory app = Returned 1).
      { unfold publishQueuedHistory, takeSnapshotAndPublish. run.
        rewrite Hen. cbn [negb].
        rewrite (stateOfLowestLedger_lowest _ lo _ Hrow Hle).
        destruct (mPublishWork (getHistoryManager app)); reflexivity. }
      unfold result in Hone. rewrite Hrun in Hone. cbn [fst] in Hone.
      injection Hone as ->.
      split; [right; reflexivity |]. split; [| lia].
      split; [| reflexivity].
      intros _. split; [reflexivity |]. exists lo, state. split; assumption.
    + rewrite (publishQueuedHistory_null_state app lo Hrow Hle) in Hrun.
      injection Hrun as <- <-.
      split; [left; reflexivity |]. split; [| reflexivity].
      split; [lia |]. intros (_ & k & state & Hk & Hlow).
      assert (k = lo) as ->.
      { specialize (Hle k (mk_is_Some _ _ Hk)).
        specialize (Hlow lo (mk_is_Some _ _ Hrow)). lia. }
      rewrite Hrow in Hk. discriminate.
  - rewrite (publishQueuedHistory_nothing_queued app Hmin) in Hrun.
    injection Hrun as <- <-.
    split; [left; reflexivity |]. split; [| reflexivity].
    split; [lia |]. intros (_ & k & state & Hk & _).
    rewrite Hmin, lookup_empty in Hk. discriminate.
Qed.

(** X16.  After [dropAll] nothing is queued, whatever was: the queue
    length and both ledger bounds are 0 and a drain returns 0 and
    activates nothing.  The in-memory state of the history manager (the
    counters, the bucket reference index, the active work) is not
    reset. *)
Theorem dropAll_empties_queue (app : Application) :
  let app' := exec dropAll app in
  publishQueueLength app' = (Returned 0, app') /\
  getMinLedgerQueuedToPublish app' = (Returned 0, app') /\
  getMaxLedgerQueuedToPublish app' = (Returned 0, app') /\
  publishQueuedHistory app' = (Returned 0, app') /\
  getHistoryManager app' = getHistoryManager app.
Proof.
  intros app'. subst app'.
  split; [reflexivity |]. split; [reflexivity |]. split; [reflexivity |].
  split; [| reflexivity].
  apply publishQueuedHistory_nothing_queued. reflexivity.
Qed.

End DrivingFacts.

(** ** Buckets referenced by the publish queue *)

Lemma occurrences_cons b x bs :
  occurrences b (x :: bs) =
    ((if decide (x = b) then 1 else 0) + occurrences b bs)%nat.
Proof.
  unfold occurrences. rewrite filter_cons.
  destruct (decide (x = b)); reflexivity.
Qed.

Lemma occurrences_pos b bs : (0 < occurrences b bs)%nat <-> b ∈ bs.
Proof.
  induction bs as [| x bs IH].
  - split; [cbn; lia | intros Hin; inversion Hin].
  - rewrite occurrences_cons, elem_of_cons.
    destruct (decide (x = b)) as [-> | Hne].
    + split; [intros _; left; reflexivity | lia].
    + rewrite Nat.add_0_l, IH. split.
      * intros Hin. right. exact Hin.
      * intros [-> | Hin]; [congruence | exact Hin].
Qed.

(** Counting the buckets of one state into a map of counts. *)
Lemma count_buckets_lookup (bs : list string) (m : gmap string Z) b :
  foldl (fun result b => <[b := default 0 (result !! b) + 1]> result) m bs !! b =
    if decide (occurrences b bs = 0%nat) then m !! b
    else Some (default 0 (m !! b) + Z.of_nat (occurrences b bs)).
Proof.
  revert m. induction bs as [| x bs IH]; intros m; [reflexivity |].
  cbn [foldl]. rewrite IH, occurrences_cons.
  destruct (decide (x = b)) as [-> | Hne].
  - rewrite lookup_insert_eq. cbn [default].
    destruct (decide (occurrences b bs = 0%nat)) as [-> | Hpos].
    + rewrite decide_False by lia. cbn. apply (f_equal Some); lia.
    + rewrite decide_False by lia. cbn. apply (f_equal Some); lia.
  - rewrite lookup_insert_ne by exact Hne. rewrite Nat.add_0_l. reflexivity.
Qed.

Lemma count_states_lookup (states : list HistoryArchiveState)
    (m : gmap string Z) b :
  foldl (fun result s =>
           foldl (fun result b => <[b := default 0 (result !! b) + 1]> result)
             result (allBuckets s)) m states !! b =
    if decide (references b states = 0%nat) then m !! b
    else Some (default 0 (m !! b) + Z.of_nat (references b states)).
Proof.
  revert m. induction states as [| s states IH]; intros m; [reflexivity |].
  cbn [foldl]. rewrite IH, count_buckets_lookup.
  unfold references. cbn [sum_list_with]. fold (references b states).
  destruct (decide (occurrences b (allBuckets s) = 0%nat)) as [-> | Hs];
    [reflexivity |].
  cbn [default].
  destruct (decide (references b states = 0%nat)) as [-> | Hr].
  - rewrite decide_False by lia. cbn. apply (f_equal Some); lia.
  - rewrite decide_False by lia. cbn. apply (f_equal Some); lia.
Qed.

Lemma references_pos b states :
  (0 < references b states)%nat <-> exists s, s ∈ states /\ b ∈ allBuckets s.
Proof.
  induction states as [| s states IH]; unfold references; cbn [sum_list_with].
  - split; [lia | intros (s & Hin & _); inversion Hin].
  - fold (references b states). split.
    + intros Hpos.
      destruct (decide (0 < occurrences b (allBuckets s))%nat) as [Hs | Hs].
      * exists s. split; [left | apply occurrences_pos, Hs].
      * destruct (proj1 IH ltac:(lia)) as (s' & Hin & Hb).
        exists s'. split; [right; exact Hin | exact Hb].
    + intros (s' & Hin & Hb). apply elem_of_cons in Hin as [-> | Hin].
      * apply occurrences_pos in Hb. lia.
      * assert (0 < references b states)%nat by (apply IH; eauto). lia.
Qed.

Section ReferencedBucketsFacts.

Context `{HistoryArchiveCodec}.

(** The rows of a table without NULL states, as [getPublishQueueStates]
    parses them. *)
Lemma getPublishQueueStates_rows (app : Application) :
  (forall k, publishqueue app !! k <> Some None) ->
  exists states,
    getPublishQueueStates app = (Returned states, app) /\
    forall s, s ∈ states <->
      exists k state,
        publishqueue app !! k = Some (Some state) /\ s = fromString state.
Proof.
  intros Hnonull. unfold getPublishQueueStates. run.
  destruct (mapM snd (map_to_list (publishqueue app))) as [texts |] eqn:Hm.
  - exists (fromString <$> texts). split; [reflexivity |].
    apply mapM_Some in Hm. intros s. rewrite list_elem_of_fmap. split.
    + intros (state & -> & Hin).
      destruct (proj1 (list_elem_of_lookup _ _) Hin) as [i Hi].
      destruct (Forall2_lookup_r _ _ _ _ _ Hm Hi) as ([k row] & Hrow & Hsnd).
      cbn in Hsnd. subst row.
      exists k, state. split; [| reflexivity].
      apply elem_of_map_to_list, list_elem_of_lookup. eauto.
    + intros (k & state & Hk & ->). exists state. split; [reflexivity |].
      apply elem_of_map_to_list in Hk.
      destruct (proj1 (list_elem_of_lookup _ _) Hk) as [i Hi].
      destruct (Forall2_lookup_l _ _ _ _ _ Hm Hi) as (state' & Hstate & Hsnd).
      cbn in Hsnd. injection Hsnd as <-.
      apply list_elem_of_lookup. eauto.
  - exfalso. apply mapM_None in Hm. apply Exists_exists in Hm.
    destruct Hm as ([k row] & Hin & Hnull). cbn in Hnull. subst row.
    apply elem_of_map_to_list in Hin. exact (Hnonull k Hin).
Qed.

(** The loaded map, with the states it was counted from. *)
Lemma loadBuckets_counts_aux (app : Application) :
  (forall k, publishqueue app !! k <> Some None) ->
  exists states loaded,
    getPublishQueueStates app = (Returned states, app) /\
    (forall s, s ∈ states <->
       exists k state,
         publishqueue app !! k = Some (Some state) /\ s = fromString state) /\
    loadBucketsReferencedByPublishQueue app = (Returned loaded, app) /\
    forall b,
      loaded !! b =
        if decide (references b states = 0%nat) then None
        else Some (Z.of_nat (references b states)).
Proof.
  intros Hnonull.
  destruct (getPublishQueueStates_rows app Hnonull) as (states & Hrun & Hrows).
  exists states. eexists. split; [exact Hrun |]. split; [exact Hrows |].
  unfold loadBucketsReferencedByPublishQueue. unfold mbind, M_bind.
  rewrite Hrun. split; [reflexivity |].
  intros b. rewrite count_states_lookup, lookup_empty. cbn [default].
  destruct (decide (references b states = 0%nat)); [reflexivity |].
  f_equal.
Qed.

(** The first call, once the table has been loaded. *)
Lemma getBuckets_after_load (app : Application) (loaded : gmap string Z) :
  mPublishQueueBucketsFilled (getHistoryManager app) = false ->
  loadBucketsReferencedByPublishQueue app = (Returned loaded, app) ->
  getBucketsReferencedByPublishQueue app =
    (Returned ((map_to_list loaded).*1),
     set_historyManager (set_mPublishQueueBucketsFilled true)
       (set_historyManager (set_mPublishQueueBuckets (fun _ => loaded)) app)).
Proof.
  intros Hfilled Hload. unfold getBucketsReferencedByPublishQueue. run.
  rewrite Hfilled. cbn [negb]. rewrite Hload. reflexivity.
Qed.

(** X18.  On its first call, over a queue without NULL states,
    [getBucketsReferencedByPublishQueue] returns, each once, exactly the
    buckets that some queued state references; it marks the index as
    filled and leaves the table as it was. *)
Theorem getBuckets_first_call (app : Application) :
  mPublishQueueBucketsFilled (getHistoryManager app) = false ->
  (forall k, publishqueue app !! k <> Some None) ->
  exists buckets,
    result getBucketsReferencedByPublishQueue app = Returned buckets /\
    NoDup buckets /\
    (forall b, b ∈ buckets <->
       exists k state,
         publishqueue app !! k = Some (Some state) /\
         b ∈ allBuckets (fromString state)) /\
    let app' := exec getBucketsReferencedByPublishQueue app in
    mPublishQueueBucketsFilled (getHistoryManager app') = true /\
    publishqueue app' = publishqueue app.
Proof.
  intros Hfilled Hnonull.
  destruct (loadBuckets_counts_aux app Hnonull)
    as (states & loaded & Hstates & Hrows & Hload & Hlookup).
  unfold result, exec.
  rewrite (getBuckets_after_load app loaded Hfilled Hload). cbn [fst snd].
  eexists. split; [reflexivity |].
  split; [apply NoDup_fst_map_to_list |].
  split; [| split; reflexivity].
  intros b. rewrite list_elem_of_fmap. split.
  - intros ([b' n] & -> & Hin). cbn. apply elem_of_map_to_list in Hin.
    rewrite Hlookup in Hin.
    destruct (decide (references b' states = 0%nat)); [discriminate |].
    destruct (proj1 (references_pos b' states) ltac:(lia)) as (s & Hs & Hb).
    apply Hrows in Hs as (k & state & Hk & ->). eauto.
  - intros (k & state & Hk & Hb).
    assert (Hpos : (0 < references b states)%nat).
    { apply references_pos. exists (fromString state).
      split; [apply Hrows; eauto | exact Hb]. }
    exists (b, Z.of_nat (references b states)). split; [reflexivity |].
    apply elem_of_map_to_list. rewrite Hlookup.
    rewrite decide_False by lia. reflexivity.
Qed.

End ReferencedBucketsFacts.

(** ** The bucket reference index and the queue *)

Lemma mapM_snd_omap {A B} (l : list (A * option B)) (ys : list B) :
  mapM snd l = Some ys -> omap snd l = ys.
Proof.
  intros Hm. apply mapM_Some in Hm.
  induction Hm as [| [a o] y l ys Hy _ IH]; [reflexivity |].
  cbn in Hy. subst o. cbn. rewrite IH. reflexivity.
Qed.

(** Taking the buckets of one state out of a map of counts. *)
Lemma removeBuckets_lookup (bs : list string) (m : gmap string Z) b (n : nat) :
  m !! b = (if decide (n = 0%nat) then None else Some (Z.of_nat n)) ->
  (occurrences b bs <= n)%nat ->
  PublishQueueBuckets.removeBuckets bs m !! b =
    if decide ((n - occurrences b bs)%nat = 0%nat) then None
    else Some (Z.of_nat (n - occurrences b bs)).
Proof.
  unfold PublishQueueBuckets.removeBuckets.
  revert m n. induction bs as [| x bs IH]; intros m n Hm Hle.
  - cbn. rewrite Nat.sub_0_r. exact Hm.
  - cbn [foldl]. rewrite occurrences_cons in *.
    destruct (decide (x = b)) as [-> | Hne].
    + rewrite (IH _ (n - 1)%nat).
      * replace (n - 1 - occurrences b bs)%nat
          with (n - (1 + occurrences b bs))%nat by lia. reflexivity.
      * unfold PublishQueueBuckets.removeBucket. rewrite Hm.
        destruct (decide (n = 0%nat)) as [? | Hn]; [lia |].
        destruct (Z.eqb_spec (Z.of_nat n - 1) 0) as [Hz | Hz].
        -- rewrite lookup_delete_eq. rewrite decide_True by lia. reflexivity.
        -- rewrite lookup_insert_eq. rewrite decide_False by lia.
           f_equal. lia.
      * lia.
    + rewrite (IH _ n); [reflexivity | | lia].
      unfold PublishQueueBuckets.removeBucket.
      destruct (m !! x) as [c |]; [| exact Hm].
      destruct (c - 1 =? 0).
      * rewrite lookup_delete_ne by exact Hne. exact Hm.
      * rewrite lookup_insert_ne by exact Hne. exact Hm.
Qed.

Section IndexFacts.

Context `{HistoryArchiveCodec}.

Lemma getPublishQueueStates_queuedStates (app : Application) :
  (forall k, publishqueue app !! k <> Some None) ->
  getPublishQueueStates app =
    (Returned (queuedStates (publishqueue app)), app).
Proof.
  intros Hnonull. unfold getPublishQueueStates, queuedStates. run.
  destruct (mapM snd (map_to_list (publishqueue app))) as [texts |] eqn:Hm.
  - rewrite (mapM_snd_omap _ _ Hm). reflexivity.
  - exfalso. apply mapM_None in Hm. apply Exists_exists in Hm.
    destruct Hm as ([k row] & Hin & Hnull). cbn in Hnull. subst row.
    apply elem_of_map_to_list in Hin. exact (Hnonull k Hin).
Qed.

(** X17.  Over a queue without NULL states,
    [loadBucketsReferencedByPublishQueue] leaves the application as it
    was and returns a map in which every bucket has as its count the
    number of times the states of the queued rows reference it, and in
    which a bucket that the state of no queued row references has no
    entry. *)
Theorem loadBuckets_counts_references (app : Application) :
  (forall k, publishqueue app !! k <> Some None) ->
  exists loaded,
    loadBucketsReferencedByPublishQueue app = (Returned loaded, app) /\
    (forall b,
       loaded !! b =
         if decide (references b (queuedStates (publishqueue app)) = 0%nat)
         then None
         else Some (Z.of_nat
                      (references b (queuedStates (publishqueue app))))) /\
    (forall b, is_Some (loaded !! b) <->
       exists k state,
         publishqueue app !! k = Some (Some state) /\
         b ∈ allBuckets (fromString state)).
Proof.
  intros Hnonull.
  destruct (loadBuckets_counts_aux app Hnonull)
    as (states & loaded & Hstates & Hrows & Hload & Hlookup).
  rewrite (getPublishQueueStates_queuedStates app Hnonull) in Hstates.
  injection Hstates as <-.
  exists loaded. split; [exact Hload |]. split; [exact Hlookup |].
  intros b. rewrite Hlookup. split.
  - intros Hsome.
    destruct (decide (references b (queuedStates (publishqueue app)) = 0%nat))
      as [Hzero | Hpos]; [destruct Hsome; discriminate |].
    destruct (proj1 (references_pos b (queuedStates (publishqueue app)))
                ltac:(lia)) as (s & Hs & Hb).
    apply Hrows in Hs as (k & state & Hk & ->). eauto.
  - intros (k & state & Hk & Hb).
    assert (Hpos : (0 < references b (queuedStates (publishqueue app)))%nat).
    { apply references_pos. exists (fromString state).
      split; [apply Hrows; eauto | exact Hb]. }
    rewrite decide_False by lia. eauto.
Qed.

(** X19.  [getBucketsReferencedByPublishQueue] reads the table on its
    first call only: once a call has returned, a further call returns the
    same buckets and changes nothing, whatever has become of the table in
    between, also over rows whose reading would throw. *)
Theorem getBuckets_second_call (app app' : Application)
    (buckets : list string) (tbl : gmap Z (option string)) :
  getBucketsReferencedByPublishQueue app = (Returned buckets, app') ->
  getBucketsReferencedByPublishQueue app' = (Returned buckets, app') /\
  getBucketsReferencedByPublishQueue (set_publishqueue (fun _ => tbl) app') =
    (Returned buckets, set_publishqueue (fun _ => tbl) app').
Proof.
  intros Hrun.
  assert (Hcached :
    mPublishQueueBucketsFilled (getHistoryManager app') = true /\
    (map_to_list (mPublishQueueBuckets (getHistoryManager app'))).*1 =
      buckets).
  { revert Hrun. unfold getBucketsReferencedByPublishQueue. run.
    destruct (mPublishQueueBucketsFilled (getHistoryManager app)) eqn:Hfilled;
      cbn [negb].
    - intros Hrun. injection Hrun as <- <-. split; [exact Hfilled | reflexivity].
    - destruct (loadBucketsReferencedByPublishQueue app) as [[loaded | e] a];
        [| discriminate].
      intros Hrun. injection Hrun as <- <-. split; reflexivity. }
  destruct Hcached as [Hfilled <-].
  split.
  - unfold getBucketsReferencedByPublishQueue. run.
    rewrite Hfilled. reflexivity.
  - unfold getBucketsReferencedByPublishQueue. run.
    cbn [getHistoryManager set_publishqueue].
    rewrite Hfilled. reflexivity.
Qed.

(** X20.  On the first call over a queue in which some row has a NULL
    state, [getBucketsReferencedByPublishQueue] ends in the exception of
    the database layer and leaves the application as it was: the index is
    not marked as filled. *)
Theorem getBuckets_null_state (app : Application) (k : Z) :
  mPublishQueueBucketsFilled (getHistoryManager app) = false ->
  publishqueue app !! k = Some None ->
  exists e, getBucketsReferencedByPublishQueue app = (Thrown e, app).
Proof.
  intros Hfilled Hnull.
  assert (Hm : mapM snd (map_to_list (publishqueue app)) = None).
  { apply mapM_None, Exists_exists. exists (k, None).
    split; [apply elem_of_map_to_list, Hnull | reflexivity]. }
  unfold getBucketsReferencedByPublishQueue,
    loadBucketsReferencedByPublishQueue, getPublishQueueStates. run.
  rewrite Hfilled. cbn [negb]. rewrite Hm. eexists. reflexivity.
Qed.

Lemma index_counts_queue_after_load (app : Application) :
  mPublishQueueBucketsFilled (getHistoryManager app) = false ->
  (forall k, publishqueue app !! k <> Some None) ->
  index_counts_queue (exec getBucketsReferencedByPublishQueue app).
Proof.
  intros Hfilled Hnonull.
  destruct (loadBuckets_counts_aux app Hnonull)
    as (states & loaded & Hstates & _ & Hload & Hlookup).
  rewrite (getPublishQueueStates_queuedStates app Hnonull) in Hstates.
  injection Hstates as <-.
  unfold exec. rewrite (getBuckets_after_load app loaded Hfilled Hload).
  intros b. cbn. apply Hlookup.
Qed.

(** X21.  The first call of [getBucketsReferencedByPublishQueue], over a
    queue without NULL states, leaves an index that counts the queue. *)
Theorem getBuckets_index_counts_queue (app : Application) :
  mPublishQueueBucketsFilled (getHistoryManager app) = false ->
  (forall k, publishqueue app !! k <> Some None) ->
  index_counts_queue (exec getBucketsReferencedByPublishQueue app).
Proof. apply index_counts_queue_after_load. Qed.

Lemma index_counts_queue_after_enqueue (app : Application) :
  let has := mkHistoryArchiveState (getLastClosedLedgerNum app)
               (getBucketList app) in
  fromString (toString has) = has ->
  publishqueue app !! getLastClosedLedgerNum app = None ->
  index_counts_queue app ->
  index_counts_queue (exec queueCurrentHistory app).
Proof.
  intros has Hcodec Hfresh Hinv b.
  unfold queueCurrentHistory, Sql.insert. run.
  cbn [publishqueue set_historyManager]. rewrite Hfresh. cbn.
  assert (Hrefs : references b
            (queuedStates (<[getLastClosedLedgerNum app := Some (toString has)]>
                             (publishqueue app))) =
          (occurrences b (allBuckets has) +
           references b (queuedStates (publishqueue app)))%nat).
  { unfold references, queuedStates.
    rewrite (map_to_list_insert _ _ _ Hfresh). cbn. rewrite Hcodec.
    reflexivity. }
  fold has. rewrite Hrefs.
  unfold PublishQueueBuckets.addBuckets.
  change (@foldl (gmap string Z) string PublishQueueBuckets.addBucket)
    with (@foldl (gmap string Z) string
            (fun result b => <[b := default 0 (result !! b) + 1]> result)).
  rewrite count_buckets_lookup, (Hinv b).
  subst has. cbn [allBuckets] in *.
  destruct (decide (occurrences b (getBucketList app) = 0%nat)) as [-> | Hocc];
    [reflexivity |].
  destruct (decide (references b (queuedStates (publishqueue app)) = 0%nat))
    as [Href | Href];
    destruct (decide ((_ + _)%nat = 0%nat)) as [? | _]; try lia;
    cbn; apply (f_equal Some); lia.
Qed.

(** X22.  Enqueueing keeps the index counting the queue: if the index
    counts the queue, the last closed ledger has no entry yet and its
    snapshot survives serialisation, then after [queueCurrentHistory] the
    index counts the longer queue. *)
Theorem queueCurrentHistory_keeps_index (app : Application) :
  let has := mkHistoryArchiveState (getLastClosedLedgerNum app)
               (getBucketList app) in
  fromString (toString has) = has ->
  publishqueue app !! getLastClosedLedgerNum app = None ->
  index_counts_queue app ->
  index_counts_queue (exec queueCurrentHistory app).
Proof. apply index_counts_queue_after_enqueue. Qed.

(** X23.  A successful confirmation keeps the index counting the queue:
    if the index counts the queue and the confirmation for a queued
    ledger passes the buckets of the state in that ledger's row, then
    after [historyPublished] the index counts the shorter queue. *)
Theorem historyPublished_keeps_index (app : Application) (ledgerSeq : Z)
    (state : string) :
  publishqueue app !! ledgerSeq = Some (Some state) ->
  index_counts_queue app ->
  index_counts_queue
    (exec (historyPublished ledgerSeq (allBuckets (fromString state)) true)
       app).
Proof.
  intros Hrow Hinv b.
  pose proof (historyPublished_success app ledgerSeq
                (allBuckets (fromString state))) as [_ Hobs].
  unfold observed in Hobs. injection Hobs as Htbl Hidx _ _.
  rewrite Htbl, Hidx.
  assert (Hrefs : references b (queuedStates (publishqueue app)) =
          (occurrences b (allBuckets (fromString state)) +
           references b (queuedStates (delete ledgerSeq (publishqueue app))))%nat).
  { unfold references, queuedStates.
    rewrite <- (map_to_list_delete _ _ _ Hrow). reflexivity. }
  rewrite (removeBuckets_lookup _ _ b
             (references b (queuedStates (publishqueue app)))).
  - rewrite Hrefs.
    replace (occurrences b (allBuckets (fromString state)) +
             references b (queuedStates (delete ledgerSeq (publishqueue app))) -
             occurrences b (allBuckets (fromString state)))%nat
      with (references b (queuedStates (delete ledgerSeq (publishqueue app))))
      by lia.
    reflexivity.
  - apply Hinv.
  - lia.
Qed.

(** X24.  While the index counts the queue, the cached answer of
    [getBucketsReferencedByPublishQueue] is exact: it holds, each once,
    the buckets that the state of some queued row references, and no
    other. *)
Theorem getBuckets_exact_when_index_counts_queue (app : Application) :
  mPublishQueueBucketsFilled (getHistoryManager app) = true ->
  index_counts_queue app ->
  exists buckets,
    getBucketsReferencedByPublishQueue app = (Returned buckets, app) /\
    NoDup buckets /\
    forall b, b ∈ buckets <->
      exists k state,
        publishqueue app !! k = Some (Some state) /\
        b ∈ allBuckets (fromString state).
Proof.
  intros Hfilled Hinv.
  exists ((map_to_list (mPublishQueueBuckets (getHistoryManager app))).*1).
  split; [| split].
  - unfold getBucketsReferencedByPublishQueue. run. rewrite Hfilled.
    reflexivity.
  - apply NoDup_fst_map_to_list.
  - intros b.
    assert (Hkey : b ∈ (map_to_list
                          (mPublishQueueBuckets (getHistoryManager app))).*1 <->
                   (0 < references b (queuedStates (publishqueue app)))%nat).
    { rewrite list_elem_of_fmap. split.
      - intros ([b' n] & -> & Hin). cbn. apply elem_of_map_to_list in Hin.
        rewrite (Hinv b') in Hin.
        destruct (decide (references b' (queuedStates (publishqueue app)) = 0%nat));
          [discriminate | lia].
      - intros Hpos.
        exists (b, Z.of_nat (references b (queuedStates (publishqueue app)))).
        split; [reflexivity |]. apply elem_of_map_to_list.
        rewrite (Hinv b). rewrite decide_False by lia. reflexivity. }
    rewrite Hkey, references_pos. unfold queuedStates. split.
    + intros (s & Hs & Hb). apply list_elem_of_fmap in Hs as (text & -> & Hin).
      apply list_elem_of_omap in Hin as ([k row] & Hin & Hsnd).
      cbn in Hsnd. subst row. apply elem_of_map_to_list in Hin. eauto.
    + intros (k & state & Hk & Hb). exists (fromString state).
      split; [| exact Hb]. apply list_elem_of_fmap. exists state.
      split; [reflexivity |]. apply list_elem_of_omap. exists (k, Some state).
      split; [apply elem_of_map_to_list, Hk | reflexivity].
Qed.

End IndexFacts.

(** ** Catch-up metrics *)

(** X25.  [operator==] on [CatchupPerformedWork] compares every field: it
    answers true exactly for equal records, and [operator!=] answers true
    exactly for different ones. *)
Theorem performedWork_eqb_spec (x y : CatchupPerformedWork) :
  (performedWork_eqb x y = true <-> x = y) /\
  (performedWork_neqb x y = true <-> x <> y).
Proof.
  assert (Heq : performedWork_eqb x y = true <-> x = y).
  { destruct x as [a1 a2 a3 a4 a5 a6 a7 a8], y as [b1 b2 b3 b4 b5 b6 b7 b8].
    unfold performedWork_eqb. cbn. split.
    - intros Hcmp.
      destruct (Z.eqb_spec a1 b1); [| discriminate].
      destruct (Z.eqb_spec a2 b2); [| discriminate].
      destruct (Z.eqb_spec a3 b3); [| discriminate].
      destruct (Z.eqb_spec a4 b4); [| discriminate].
      destruct (Bool.eqb_spec a5 b5); [| discriminate].
      destruct (Bool.eqb_spec a6 b6); [| discriminate].
      destruct (Z.eqb_spec a7 b7); [| discriminate].
      destruct (Z.eqb_spec a8 b8); [| discriminate].
      congruence.
    - intros Hxy. injection Hxy as -> -> -> -> -> -> -> ->.
      rewrite !Z.eqb_refl, !Bool.eqb_reflx. reflexivity. }
  split; [exact Heq |].
  unfold performedWork_neqb. rewrite negb_true_iff.
  rewrite <- Heq. destruct (performedWork_eqb x y); split; congruence.
Qed.

(** X26.  The performed work read off [end - start], for counters within
    64 bits: a counter that has not gone down holds its exact increase,
    and each bucket flag is true exactly when the bucket counter has
    changed. *)
Theorem performedWork_of_difference (finish start : CatchupMetrics.t) :
  CatchupMetrics.in_range finish -> CatchupMetrics.in_range start ->
  let work :=
    performedWorkOfMetrics (CatchupMetrics.minus finish start) in
  (CatchupMetrics.mHistoryArchiveStatesDownloaded start <=
     CatchupMetrics.mHistoryArchiveStatesDownloaded finish ->
   mHistoryArchiveStatesDownloaded work =
     CatchupMetrics.mHistoryArchiveStatesDownloaded finish -
     CatchupMetrics.mHistoryArchiveStatesDownloaded start) /\
  (CatchupMetrics.mLedgersDownloaded start <=
     CatchupMetrics.mLedgersDownloaded finish ->
   mLedgersDownloaded work =
     CatchupMetrics.mLedgersDownloaded finish -
     CatchupMetrics.mLedgersDownloaded start) /\
  (CatchupMetrics.mLedgersVerified start <=
     CatchupMetrics.mLedgersVerified finish ->
   mLedgersVerified work =
     CatchupMetrics.mLedgersVerified finish -
     CatchupMetrics.mLedgersVerified start) /\
  (CatchupMetrics.mLedgerChainsVerificationFailed start <=
     CatchupMetrics.mLedgerChainsVerificationFailed finish ->
   mLedgerChainsVerificationFailed work =
     CatchupMetrics.mLedgerChainsVerificationFailed finish -
     CatchupMetrics.mLedgerChainsVerificationFailed start) /\
  (CatchupMetrics.mTransactionsDownloaded start <=
     CatchupMetrics.mTransactionsDownloaded finish ->
   mTransactionsDownloaded work =
     CatchupMetrics.mTransactionsDownloaded finish -
     CatchupMetrics.mTransactionsDownloaded start) /\
  (CatchupMetrics.mTransactionsApplied start <=
     CatchupMetrics.mTransactionsApplied finish ->
   mTransactionsApplied work =
     CatchupMetrics.mTransactionsApplied finish -
     CatchupMetrics.mTransactionsApplied start) /\
  (mBucketsDownloaded work = true <->
   CatchupMetrics.mBucketsDownloaded finish <>
   CatchupMetrics.mBucketsDownloaded start) /\
  (mBucketsApplied work = true <->
   CatchupMetrics.mBucketsApplied finish <>
   CatchupMetrics.mBucketsApplied start).
Proof.
  destruct finish as [a1 a2 a3 a4 a5 a6 a7 a8],
           start as [b1 b2 b3 b4 b5 b6 b7 b8].
  unfold CatchupMetrics.in_range, performedWorkOfMetrics,
    CatchupMetrics.minus, wrap64. cbn -[Z.pow Z.modulo].
  intros Ha Hb.
  change (2 ^ 64) with 18446744073709551616 in *.
  repeat match goal with
         | |- _ /\ _ => split
         | |- _ -> _ => intros ?
         end;
    try (apply Z.mod_small; lia).
  all: rewrite Z.ltb_lt; split; intros Hc.
  all: Z.div_mod_to_equations; lia.
Qed.

(** ** The publish status line *)

(** Splits on whether the status line that is current is the one that is
    shown, for each shape of the line. *)
Ltac status_line_cases statusMessage log :=
  match goal with
  | |- context [bool_decide (_ <> ?c)] =>
      let current := fresh "current" in
      set (current := c);
      let Hsame := fresh "Hsame" in
      let Hdiff := fresh "Hdiff" in
      destruct (decide (default ""%string statusMessage = current))
        as [Hsame | Hdiff];
      [ rewrite (bool_decide_eq_false_2 _ (fun Hne => Hne Hsame));
        exists statusMessage, log;
        rewrite (bool_decide_eq_false_2 _ (fun Hne => Hne Hsame));
        split; [reflexivity |]; split; [reflexivity |];
        split; [discriminate |]; intros _;
        destruct statusMessage as [line |];
        [ exists line; auto
        | exists current; cbn in Hsame; split; [| auto];
          subst current; discriminate ]
      | rewrite (bool_decide_eq_true_2 _ Hdiff);
        exists (Some current), (log ++ [current]);
        change (default ""%string (Some current)) with current;
        rewrite (bool_decide_eq_false_2 (current <> current)
                   (fun Hne => Hne eq_refl));
        split; [reflexivity |]; split; [reflexivity |];
        split; [discriminate |]; intros _; exists current; auto ]
  end.

Section PublishStatusFacts.

Variable getStatus : PublishWork -> string.

(** X27.  [logAndUpdatePublishStatus] never changes the application.
    Without an active publish work it removes the status message and logs
    nothing.  With one it leaves a status message in place, logging at
    most the one line that it sets.  Called again at once it changes
    neither the message nor the log: a status line is logged only when it
    differs from the one that is shown. *)
Theorem logAndUpdatePublishStatus_logs_changes (app : Application)
    (statusMessage : option string) (log : list string) :
  exists message log',
    logAndUpdatePublishStatus getStatus statusMessage log app =
      (Returned (message, log'), app) /\
    logAndUpdatePublishStatus getStatus message log' app =
      (Returned (message, log'), app) /\
    (mPublishWork (getHistoryManager app) = None ->
       message = None /\ log' = log) /\
    (mPublishWork (getHistoryManager app) <> None ->
       exists line, message = Some line /\
         (log' = log \/ log' = log ++ [line])).
Proof.
  unfold logAndUpdatePublishStatus, publishQueueLength,
    getMinLedgerQueuedToPublish, getMaxLedgerQueuedToPublish. run.
  destruct (mPublishWork (getHistoryManager app)) as [work |].
  - destruct (Sql.minLedger (publishqueue app)) as [lo |];
      destruct (Sql.maxLedger (publishqueue app)) as [hi |]; cbn [fst snd];
      status_line_cases statusMessage log.
  - exists None, log. repeat split; try reflexivity. intros Habs. contradiction.
Qed.

End PublishStatusFacts.

(** ** Missing buckets *)

Lemma string_lt_compare a b : string_lt a b <-> String.compare a b = Lt.
Proof.
  unfold string_lt, String.ltb.
  destruct (String.compare a b); split; congruence.
Qed.

Lemma ascii_compare_lt_trans a b c :
  Ascii.compare a b = Lt -> Ascii.compare b c = Lt -> Ascii.compare a c = Lt.
Proof. unfold Ascii.compare. rewrite !N.compare_lt_iff. lia. Qed.

Lemma string_compare_lt_trans a : forall b c,
  String.compare a b = Lt -> String.compare b c = Lt -> String.compare a c = Lt.
Proof.
  induction a as [| x a IH]; intros [| y b] [| z c]; cbn; try congruence.
  destruct (Ascii.compare x y) eqn:Hxy; try discriminate;
    destruct (Ascii.compare y z) eqn:Hyz; try discriminate; intros H1 H2.
  - apply Ascii.compare_eq_iff in Hxy, Hyz. subst.
    replace (Ascii.compare z z) with Eq.
    + eapply IH; eauto.
    + symmetry. unfold Ascii.compare. apply N.compare_refl.
  - apply Ascii.compare_eq_iff in Hxy. subst. rewrite Hyz. reflexivity.
  - apply Ascii.compare_eq_iff in Hyz. subst. rewrite Hxy. reflexivity.
  - rewrite (ascii_compare_lt_trans _ _ _ Hxy Hyz). reflexivity.
Qed.

Lemma string_lt_irrefl a : ~ string_lt a a.
Proof.
  rewrite string_lt_compare. intros Hlt.
  pose proof (String.compare_antisym a a) as Hanti.
  rewrite Hlt in Hanti. discriminate.
Qed.

Lemma string_lt_sorted_NoDup (l : list string) :
  Sorted string_lt l -> NoDup l.
Proof.
  intros Hs. apply Sorted_StronglySorted in Hs.
  - induction Hs as [| x l _ IH Hall]; constructor; [| exact IH].
    intros Hin. rewrite Forall_forall in Hall.
    exact (string_lt_irrefl x (Hall x Hin)).
  - intros a b c Hab Hbc. apply string_lt_compare.
    apply string_lt_compare in Hab, Hbc.
    exact (string_compare_lt_trans a b c Hab Hbc).
Qed.

Lemma set_insert_elem x y l : y ∈ set_insert x l <-> y = x \/ y ∈ l.
Proof.
  induction l as [| z l IH]; cbn.
  - rewrite list_elem_of_singleton. split; [auto | intros [? | Hin]; [auto | inversion Hin]].
  - destruct (String.compare x z) eqn:Hcmp.
    + apply String.compare_eq_iff in Hcmp. subst z.
      rewrite elem_of_cons. tauto.
    + rewrite elem_of_cons. tauto.
    + rewrite !elem_of_cons, IH. tauto.
Qed.

Lemma set_insert_sorted x l :
  Sorted string_lt l -> Sorted string_lt (set_insert x l).
Proof.
  induction l as [| z l IH]; intros Hs; cbn.
  - repeat constructor.
  - destruct (String.compare x z) eqn:Hcmp.
    + exact Hs.
    + constructor; [exact Hs |]. constructor.
      apply string_lt_compare, Hcmp.
    + apply Sorted_inv in Hs as [Hs Hhd]. constructor; [apply IH, Hs |].
      assert (Hzx : string_lt z x).
      { apply string_lt_compare. rewrite String.compare_antisym, Hcmp.
        reflexivity. }
      destruct l as [| w l]; cbn.
      * constructor. exact Hzx.
      * destruct (String.compare x w); constructor;
          solve [exact Hzx | inversion Hhd; assumption].
Qed.

Lemma set_insert_all_sorted (bs l : list string) :
  Sorted string_lt l ->
  Sorted string_lt (foldl (fun buckets b => set_insert b buckets) l bs).
Proof.
  revert l. induction bs as [| b bs IH]; intros l Hs; cbn; [exact Hs |].
  apply IH, set_insert_sorted, Hs.
Qed.

Lemma set_insert_all_elem (bs l : list string) y :
  y ∈ foldl (fun buckets b => set_insert b buckets) l bs <-> y ∈ bs \/ y ∈ l.
Proof.
  revert l. induction bs as [| b bs IH]; intros l; cbn.
  - split; [auto | intros [Hin | ?]; [inversion Hin | auto]].
  - rewrite IH, set_insert_elem, elem_of_cons. tauto.
Qed.

Section MissingBucketsFacts.

Context `{HistoryArchiveCodec}.

Variable checkForMissingBucketsFiles : HistoryArchiveState -> list string.

Lemma collect_missing_sorted (states : list HistoryArchiveState)
    (l : list string) :
  Sorted string_lt l ->
  Sorted string_lt
    (foldl (fun buckets s =>
              let sb := checkForMissingBucketsFiles s in
              foldl (fun buckets b => set_insert b buckets) buckets sb)
       l states).
Proof.
  revert l. induction states as [| s states IH]; intros l Hs; cbn; [exact Hs |].
  apply IH, set_insert_all_sorted, Hs.
Qed.

Lemma collect_missing_elem (states : list HistoryArchiveState)
    (l : list string) y :
  y ∈ foldl (fun buckets s =>
               let sb := checkForMissingBucketsFiles s in
               foldl (fun buckets b => set_insert b buckets) buckets sb)
        l states <->
  (exists s, s ∈ states /\ y ∈ checkForMissingBucketsFiles s) \/ y ∈ l.
Proof.
  revert l. induction states as [| s states IH]; intros l; cbn.
  - split; [auto | intros [(s & Hin & _) | ?]; [inversion Hin | auto]].
  - rewrite IH, set_insert_all_elem. split.
    + intros [(s' & Hin & Hy) | [Hy | Hy]].
      * left. exists s'. split; [right; exact Hin | exact Hy].
      * left. exists s. split; [left | exact Hy].
      * right. exact Hy.
    + intros [(s' & Hin & Hy) | Hy].
      * apply elem_of_cons in Hin as [-> | Hin]; [right; left; exact Hy |].
        left. exists s'. auto.
      * right. right. exact Hy.
Qed.

(** X28.  Over a queue without NULL states,
    [getMissingBucketsReferencedByPublishQueue] returns, in ascending
    order and each once, exactly the buckets that the bucket manager
    reports missing for the state of some queued row; it changes
    nothing. *)
Theorem getMissingBuckets_sorted_union (app : Application) :
  (forall k, publishqueue app !! k <> Some None) ->
  exists buckets,
    getMissingBucketsReferencedByPublishQueue checkForMissingBucketsFiles app =
      (Returned buckets, app) /\
    Sorted string_lt buckets /\
    NoDup buckets /\
    forall b, b ∈ buckets <->
      exists k state,
        publishqueue app !! k = Some (Some state) /\
        b ∈ checkForMissingBucketsFiles (fromString state).
Proof.
  intros Hnonull.
  destruct (getPublishQueueStates_rows app Hnonull) as (states & Hrun & Hrows).
  unfold getMissingBucketsReferencedByPublishQueue. unfold mbind, M_bind.
  rewrite Hrun. eexists. split; [reflexivity |].
  split; [apply collect_missing_sorted; constructor |].
  split; [apply string_lt_sorted_NoDup, collect_missing_sorted; constructor |].
  intros b. rewrite collect_missing_elem. split.
  - intros [(s & Hs & Hb) | Hin]; [| inversion Hin].
    apply Hrows in Hs as (k & state & Hk & ->). eauto.
  - intros (k & state & Hk & Hb). left. exists (fromString state).
    split; [apply Hrows; eauto | exact Hb].
Qed.

End MissingBucketsFacts.

(** ** Ledger chain files of the tests *)

Lemma last_cons_default {A} (l : list A) (e d : A) :
  List.last (e :: l) d = List.last l e.
Proof.
  revert e d. induction l as [| a l IH]; intros e d; [reflexivity |].
  change (List.last (e :: a :: l) d) with (List.last (a :: l) d).
  rewrite !IH. reflexivity.
Qed.

Lemma createHistoryFiles_from (lhv out : list LedgerHeaderHistoryEntry)
    (first last : LedgerHeaderHistoryEntry) :
  foldl (fun '(ledgerOut, (first, last)) ledger =>
           let first := if ledgerSeq (header first) =? 0 then ledger
                        else first in
           (ledgerOut ++ [ledger], (first, ledger)))
    (out, (first, last)) lhv =
  (out ++ lhv,
   (default (List.last lhv first)
      (List.find (fun e => negb (ledgerSeq (header e) =? 0)) (first :: lhv)),
    List.last lhv last)).
Proof.
  revert out first last. induction lhv as [| e lhv IH]; intros out first last.
  - cbn. rewrite app_nil_r.
    destruct (ledgerSeq (header first) =? 0); reflexivity.
  - cbn [foldl]. rewrite IH. rewrite <- app_assoc. cbn [app].
    rewrite !last_cons_default.
    destruct (ledgerSeq (header first) =? 0) eqn:Hz.
    + cbn [List.find]. rewrite Hz. cbn [negb].
      destruct (negb (ledgerSeq (header e) =? 0)); reflexivity.
    + cbn [List.find]. rewrite Hz. reflexivity.
Qed.

(** X29.  [createHistoryFiles] writes the given entries, in order, to the
    ledger file; [last] becomes the last entry written, or stays when
    there is none; [first] is replaced only while its ledger sequence is
    0, so it ends as the first entry with a sequence other than 0 among
    the old [first] and the entries written, or as the last entry when
    all sequences are 0. *)
Theorem createHistoryFiles_ends (lhv : list LedgerHeaderHistoryEntry)
    (first last : LedgerHeaderHistoryEntry) :
  createHistoryFiles lhv first last =
    (lhv,
     (default (List.last lhv first)
        (List.find (fun e => negb (ledgerSeq (header e) =? 0)) (first :: lhv)),
      List.last lhv last)).
Proof. unfold createHistoryFiles. apply createHistoryFiles_from. Qed.

Section LedgerChainFacts.

Variable LedgerVerificationStatus : Type.
Variable generateLedgerHeadersForCheckpoint :
  LedgerHeaderHistoryEntry -> Z -> LedgerVerificationStatus ->
  list LedgerHeaderHistoryEntry.

(** X30.  For the checkpoint boundary [c = k * freq - 1], [k >= 1], within
    32 bits, [makeOneLedgerFile] asks the generator for [n] headers after
    a last closed entry at ledger [init] whose previous hash is the given
    one, with [init >= 1] and [init + n - 1 = c]: for the first checkpoint
    the [freq - 1] ledgers from the genesis ledger, for every other the
    [freq] ledgers from [(k - 1) * freq]; and it writes and returns the
    ends of what the generator gives. *)
Theorem makeOneLedgerFile_span (cfg : Config) (k : Z) (prevHash : Hash)
    (state : LedgerVerificationStatus) :
  1 <= k -> k * getCheckpointFrequency cfg <= modulus ->
  let freq := getCheckpointFrequency cfg in
  let c := k * freq - 1 in
  let init := if k =? 1 then GENESIS_LEDGER_SEQ else (k - 1) * freq in
  let n := if k =? 1 then freq - 1 else freq in
  1 <= init /\ init + n - 1 = c /\
  makeOneLedgerFile LedgerVerificationStatus
    generateLedgerHeadersForCheckpoint cfg c prevHash state =
  createHistoryFiles
    (generateLedgerHeadersForCheckpoint
       (mkLedgerHeaderHistoryEntry zeroHash (mkLedgerHeader init prevHash))
       n state)
    defaultEntry defaultEntry.
Proof.
  intros Hk Hrange freq c init n. subst freq c init n.
  assert (Hprev : prevCheckpointLedger cfg (k * getCheckpointFrequency cfg - 1) =
                  (k - 1) * getCheckpointFrequency cfg).
  { solve32 cfg. }
  unfold makeOneLedgerFile. rewrite Hprev.
  destruct (Z.eqb_spec k 1) as [-> | Hne].
  - split; [unfold GENESIS_LEDGER_SEQ; lia |].
    split; [unfold GENESIS_LEDGER_SEQ; lia |].
    replace ((1 - 1) * getCheckpointFrequency cfg) with 0 by lia. cbn [Z.eqb].
    replace (sub32 (getCheckpointFrequency cfg) 1)
      with (getCheckpointFrequency cfg - 1) by solve32 cfg.
    reflexivity.
  - pose proof (frequency_pos cfg) as Hf.
    split; [nia |]. split; [lia |].
    destruct (Z.eqb_spec ((k - 1) * getCheckpointFrequency cfg) 0) as [Hz | _];
      [nia |].
    reflexivity.
Qed.

End LedgerChainFacts.

(** ** Worked examples of the further properties *)

Lemma queue_64_128_lowest (j : Z) :
  is_Some (publishqueue queued64and128 !! j) -> 64 <= j.
Proof.
  intros [v Hv]. unfold queued64and128, publishqueue in Hv.
  destruct (decide (j = 64)) as [-> | Hne64]; [lia |].
  rewrite lookup_insert_ne in Hv by congruence.
  destruct (decide (j = 128)) as [-> | Hne128]; [lia |].
  rewrite lookup_singleton_ne in Hv by congruence. discriminate.
Defined.

Lemma queue_64_128_without_64 (j : Z) :
  is_Some (delete 64 (publishqueue queued64and128) !! j) -> 128 <= j.
Proof.
  intros [v Hv]. unfold queued64and128, publishqueue in Hv.
  rewrite delete_insert_eq in Hv.
  destruct (decide (j = 64)) as [-> | Hne64].
  - rewrite lookup_delete_eq in Hv. discriminate.
  - rewrite lookup_delete_ne in Hv by congruence.
    destruct (decide (j = 128)) as [-> | Hne128]; [lia |].
    rewrite lookup_singleton_ne in Hv by congruence. discriminate.
Defined.

Lemma queue_64_128_no_null (k : Z) :
  publishqueue restarted64and128 !! k <> Some None.
Proof.
  unfold restarted64and128, queued64and128. cbn.
  destruct (decide (k = 64)) as [-> | Hne64];
    [rewrite lookup_insert_eq; discriminate |].
  rewrite lookup_insert_ne by congruence.
  destruct (decide (k = 128)) as [-> | Hne128];
    [rewrite lookup_singleton_eq; discriminate |].
  rewrite lookup_singleton_ne by congruence. discriminate.
Defined.

Lemma closed64_index_counts_queue :
  @index_counts_queue fixtureCodec closed64.
Proof. intros b. cbn. apply lookup_empty. Defined.

Lemma maybeQueueHistoryCheckpoint_declines_witness :
  @maybeQueueHistoryCheckpoint fixtureCodec queued64and128 =
    (Returned false, queued64and128).
Proof.
  apply (@maybeQueueHistoryCheckpoint_declines fixtureCodec queued64and128).
  - unfold in_range. rewrite modulus_eq. cbn. lia.
  - left. cbn. discriminate.
Defined.

Lemma maybeQueueHistoryCheckpoint_queues_boundary_witness :
  checkpointContainingLedger productionConfig 63 = 63 /\
  publishqueue (exec (@maybeQueueHistoryCheckpoint fixtureCodec) closed63) !! 63 =
    Some (Some "has128"%string).
Proof.
  pose proof (@maybeQueueHistoryCheckpoint_queues_boundary fixtureCodec closed63
                ltac:(unfold in_range; rewrite modulus_eq; cbn; lia)
                eq_refl) as Hthm.
  destruct Hthm as (_ & Hfix & _ & _ & Hrow). split; [exact Hfix | exact Hrow].
Defined.

Lemma enqueue_then_drain_witness :
  mPublishWork
    (getHistoryManager
       (exec (@queueCurrentHistory fixtureCodec;;
              @publishQueuedHistory fixtureCodec) closed64)) =
  Some (mkPublishWork has64
          [ResolveSnapshotWork; WriteSnapshotWork; PutSnapshotFilesWork]).
Proof.
  pose proof (@enqueue_then_drain fixtureCodec closed64 eq_refl eq_refl) as Hthm.
  refine (proj1 (proj2 (Hthm _ eq_refl eq_refl))).
  intros k [v Hv]. cbn in Hv. rewrite lookup_empty in Hv. discriminate.
Defined.

Lemma confirmation_drives_next_witness :
  mPublishWork
    (getHistoryManager
       (exec (historyPublished 64 (allBuckets has64) true;;
              @runPosted fixtureCodec) queued64and128)) =
  Some (mkPublishWork has128
          [ResolveSnapshotWork; WriteSnapshotWork; PutSnapshotFilesWork]).
Proof.
  pose proof (@confirmation_drives_next fixtureCodec queued64and128 64
                (allBuckets has64) true eq_refl eq_refl) as Hthm.
  destruct Hthm as (_ & _ & _ & _ & Hnext).
  exact (proj1 (Hnext 128 "has128"%string eq_refl queue_64_128_without_64)).
Defined.

Lemma historyPublished_unqueued_ledger_witness :
  observed (exec (historyPublished 32 [] true) queued64and128) =
    (publishqueue queued64and128,
     mPublishQueueBuckets (getHistoryManager queued64and128), 1, 0).
Proof.
  exact (proj2 (historyPublished_unqueued_ledger queued64and128 32 [] eq_refl)).
Defined.

Lemma enqueue_confirm_round_trip_witness :
  publishqueue
    (exec (historyPublished 64 (allBuckets has64) true)
       (set_steadyClockNow 160
          (exec (historyPublished 64 (allBuckets has64) false)
             (exec (@queueCurrentHistory fixtureCodec) closed64)))) = ∅ /\
  mEnqueueToPublishTimer
    (getHistoryManager
       (exec (historyPublished 64 (allBuckets has64) true)
          (set_steadyClockNow 160
             (exec (historyPublished 64 (allBuckets has64) false)
                (exec (@queueCurrentHistory fixtureCodec) closed64))))) = [60].
Proof.
  pose proof (@enqueue_confirm_round_trip fixtureCodec closed64
                (allBuckets has64) 160 eq_refl eq_refl) as Hthm.
  destruct Hthm as (Htbl & _ & Htimer & _). split; [exact Htbl | exact Htimer].
Defined.

Lemma publishQueuedHistory_returns_witness :
  @publishQueuedHistory fixtureCodec publishing64 =
    (Returned 1, publishing64) /\
  (1 = 1 <->
   mPublicationEnabled (getHistoryManager publishing64) = true /\
   exists k state,
     publishqueue publishing64 !! k = Some (Some state) /\
     forall j, is_Some (publishqueue publishing64 !! j) -> k <= j).
Proof.
  assert (Hrun : @publishQueuedHistory fixtureCodec publishing64 =
                   (Returned 1, publishing64)) by (vm_compute; reflexivity).
  split; [exact Hrun |].
  exact (proj1 (proj2 (@publishQueuedHistory_returns fixtureCodec
                         publishing64 publishing64 1 Hrun))).
Defined.

Lemma loadBuckets_counts_references_witness :
  exists loaded,
    @loadBucketsReferencedByPublishQueue fixtureCodec restarted64and128 =
      (Returned loaded, restarted64and128) /\
    loaded !! "b-shared"%string = Some 2 /\
    loaded !! "b-64"%string = Some 1 /\
    loaded !! "b-0"%string = None.
Proof.
  destruct (@loadBuckets_counts_references fixtureCodec restarted64and128
              queue_64_128_no_null) as (loaded & Hload & Hcount & _).
  exists loaded. split; [exact Hload |].
  split; [| split]; rewrite Hcount; vm_compute; reflexivity.
Defined.

Lemma getBuckets_first_call_witness :
  exists buckets,
    result (@getBucketsReferencedByPublishQueue fixtureCodec)
      restarted64and128 = Returned buckets /\
    NoDup buckets.
Proof.
  destruct (@getBuckets_first_call fixtureCodec restarted64and128 eq_refl
              queue_64_128_no_null) as (buckets & Hrun & Hnodup & _).
  exists buckets. split; [exact Hrun | exact Hnodup].
Defined.

Lemma getBuckets_second_call_witness :
  exists buckets,
    let loaded :=
      exec (@getBucketsReferencedByPublishQueue fixtureCodec)
        restarted64and128 in
    @getBucketsReferencedByPublishQueue fixtureCodec restarted64and128 =
      (Returned buckets, loaded) /\
    @getBucketsReferencedByPublishQueue fixtureCodec
      (set_publishqueue (fun _ => {[ 64 := None ]}) loaded) =
    (Returned buckets, set_publishqueue (fun _ => {[ 64 := None ]}) loaded).
Proof.
  eexists. cbn zeta.
  assert (Hrun : @getBucketsReferencedByPublishQueue fixtureCodec
                   restarted64and128 =
                 (Returned _,
                  exec (@getBucketsReferencedByPublishQueue fixtureCodec)
                    restarted64and128)) by (vm_compute; reflexivity).
  split; [exact Hrun |].
  exact (proj2 (@getBuckets_second_call fixtureCodec restarted64and128 _ _
                  {[ 64 := None ]} Hrun)).
Defined.

Lemma getBuckets_null_state_witness :
  exists e,
    @getBucketsReferencedByPublishQueue fixtureCodec nullState64 =
      (Thrown e, nullState64).
Proof.
  exact (@getBuckets_null_state fixtureCodec nullState64 64 eq_refl eq_refl).
Defined.

Lemma getBuckets_index_counts_queue_witness :
  @index_counts_queue fixtureCodec
    (exec (@getBucketsReferencedByPublishQueue fixtureCodec)
       restarted64and128).
Proof.
  exact (@getBuckets_index_counts_queue fixtureCodec restarted64and128 eq_refl
           queue_64_128_no_null).
Defined.

Lemma queueCurrentHistory_keeps_index_witness :
  @index_counts_queue fixtureCodec
    (exec (@queueCurrentHistory fixtureCodec) closed64).
Proof.
  exact (@queueCurrentHistory_keeps_index fixtureCodec closed64 eq_refl
           eq_refl closed64_index_counts_queue).
Defined.

Lemma historyPublished_keeps_index_witness :
  @index_counts_queue fixtureCodec
    (exec (historyPublished 64 (allBuckets has64) true)
       (exec (@queueCurrentHistory fixtureCodec) closed64)).
Proof.
  exact (@historyPublished_keeps_index fixtureCodec
           (exec (@queueCurrentHistory fixtureCodec) closed64) 64
           "has64"%string eq_refl
           (@index_counts_queue_after_enqueue fixtureCodec closed64 eq_refl
              eq_refl closed64_index_counts_queue)).
Defined.

Lemma getBuckets_exact_when_index_counts_queue_witness :
  exists buckets,
    @getBucketsReferencedByPublishQueue fixtureCodec
      (exec (@getBucketsReferencedByPublishQueue fixtureCodec)
         restarted64and128) =
    (Returned buckets,
     exec (@getBucketsReferencedByPublishQueue fixtureCodec)
       restarted64and128) /\
    NoDup buckets.
Proof.
  destruct (@getBuckets_exact_when_index_counts_queue fixtureCodec
              (exec (@getBucketsReferencedByPublishQueue fixtureCodec)
                 restarted64and128)
              eq_refl
              (@index_counts_queue_after_load fixtureCodec restarted64and128
                 eq_refl queue_64_128_no_null))
    as (buckets & Hrun & Hnodup & _).
  exists buckets. split; [exact Hrun | exact Hnodup].
Defined.

Lemma performedWork_eqb_spec_witness :
  performedWork_eqb (performedWorkOfMetrics metricsAfter)
    (performedWorkOfMetrics metricsAfter) = true.
Proof.
  apply (proj1 (performedWork_eqb_spec _ _)). reflexivity.
Defined.

Lemma performedWork_of_difference_witness :
  mHistoryArchiveStatesDownloaded
    (performedWorkOfMetrics (CatchupMetrics.minus metricsAfter metricsBefore)) =
  2.
Proof.
  pose proof (performedWork_of_difference metricsAfter metricsBefore) as Hthm.
  refine (proj1 (Hthm _ _) _).
  - unfold CatchupMetrics.in_range. cbn. lia.
  - unfold CatchupMetrics.in_range. cbn. lia.
  - cbn. lia.
Defined.

Lemma logAndUpdatePublishStatus_logs_changes_witness :
  exists message log',
    logAndUpdatePublishStatus (fun _ => "resolving"%string) None [] publishing64 =
      (Returned (message, log'), publishing64) /\
    exists line, message = Some line /\ (log' = [] \/ log' = [] ++ [line]).
Proof.
  destruct (logAndUpdatePublishStatus_logs_changes
              (fun _ => "resolving"%string) publishing64 None [])
    as (message & log' & Hrun & _ & _ & Hactive).
  exists message, log'. split; [exact Hrun |].
  apply Hactive. cbn. discriminate.
Defined.

Lemma getMissingBuckets_sorted_union_witness :
  exists buckets,
    @getMissingBucketsReferencedByPublishQueue fixtureCodec onlyB64Missing
      restarted64and128 = (Returned buckets, restarted64and128) /\
    Sorted string_lt buckets.
Proof.
  destruct (@getMissingBuckets_sorted_union fixtureCodec onlyB64Missing
              restarted64and128 queue_64_128_no_null)
    as (buckets & Hrun & Hsorted & _).
  exists buckets. split; [exact Hrun | exact Hsorted].
Defined.

Lemma makeOneLedgerFile_span_witness :
  makeOneLedgerFile unit numberedHeaders productionConfig 127 zeroHash tt =
  createHistoryFiles
    (numberedHeaders
       (mkLedgerHeaderHistoryEntry zeroHash (mkLedgerHeader 64 zeroHash)) 64 tt)
    defaultEntry defaultEntry.
Proof.
  pose proof (makeOneLedgerFile_span unit numberedHeaders productionConfig 2
                zeroHash tt ltac:(lia)
                ltac:(rewrite modulus_eq; cbn; lia)) as Hthm.
  exact (proj2 (proj2 Hthm)).
Defined.

(** The status line of the node that is publishing ledger 64. *)
Example status_line_of_publishing64 :
  result (logAndUpdatePublishStatus (fun _ => "resolving"%string) None [])
    publishing64 =
  Returned
    (Some "Publishing 2 queued checkpoints [64-128]: resolving"%string,
     ["Publishing 2 queued checkpoints [64-128]: resolving"%string]).
Proof. vm_compute. reflexivity. Qed.

(** The second checkpoint file of the numbered generator: the 64 ledgers
    from 64 to 127. *)
Example second_checkpoint_file :
  let '(file, (first, last)) :=
    makeOneLedgerFile unit numberedHeaders productionConfig 127 zeroHash tt in
  length file = 64%nat /\
  ledgerSeq (header first) = 64 /\ ledgerSeq (header last) = 127.
Proof. vm_compute. auto. Qed.
